(** * envbee SDK: the client facade and its request signing

    A shallow embedding of [envbee_sdk/main.py] (class [Envbee]) and
    [envbee_sdk/utils.py] ([add_querystring]), together with executable
    models of the library calls they make: [hashlib.md5],
    [hashlib.sha256], [hmac], [urllib.parse] and the behaviour of
    [requests] and [diskcache] that the client observes.

    Conventions.
    - A Python [str] is modelled by a Rocq [string] holding the bytes of
      its UTF-8 encoding, so [s.encode("utf-8")] reads the bytes off and
      concatenation is [append].  A [str] with a lone surrogate (the only
      kind [encode] rejects) has no such image and is outside the model.
    - Python [bytes] are [list byte].
    - Python exceptions are values of [exn]; a call that may raise returns
      [res].  Only subclasses of [Exception] are modelled.
    - Logging has no effect on results and is left out. *)

From Stdlib Require Import ZArith List String Ascii Bool Lia DecimalString DecimalZ DecimalPos.
From Stdlib.Strings Require Import Byte.
Import ListNotations.

Open Scope string_scope.
Open Scope list_scope.

(** string concatenation, Python's [+] on [str] *)
Infix "+++" := String.append (right associativity, at level 60).

(** ** Bytes and text *)

Definition bytes := list byte.

Definition byte_val (b : byte) : Z := Z.of_N (Byte.to_N b).

Definition byte_of_Z (z : Z) : byte :=
  match Byte.of_N (Z.to_N (z mod 256)) with
  | Some b => b
  | None => x00
  end.

(** [s.encode("utf-8")] *)
Definition encode_utf8 (s : string) : bytes := list_byte_of_string s.

(** [str(n)] for an [int] *)
Definition str_of_int (n : Z) : string := NilZero.string_of_int (Z.to_int n).

Definition hex_lower : list ascii := list_ascii_of_string "0123456789abcdef".
Definition hex_upper : list ascii := list_ascii_of_string "0123456789ABCDEF".

Definition hex_pair (digits : list ascii) (v : Z) : string :=
  String (nth (Z.to_nat (v / 16)) digits "0"%char)
    (String (nth (Z.to_nat (v mod 16)) digits "0"%char) EmptyString).

(** [bytes.hex()], as [hexdigest] renders a digest *)
Fixpoint hexlify (bs : list Z) : string :=
  match bs with
  | [] => EmptyString
  | b :: rest => hex_pair hex_lower b +++ hexlify rest
  end.

(** Cut a list into consecutive pieces of [n] elements; [fuel] bounds the
    number of pieces. *)
Fixpoint chunks {A} (fuel n : nat) (l : list A) : list (list A) :=
  match fuel with
  | O => []
  | S fuel' =>
      match l with
      | [] => []
      | _ => firstn n l :: chunks fuel' n (skipn n l)
      end
  end.

(** ** 32-bit words *)

Module Word32.
Local Open Scope Z_scope.
Local Open Scope list_scope.

Definition modulus : Z := 4294967296.
Definition wrap (x : Z) : Z := x mod modulus.
Definition add (x y : Z) : Z := wrap (x + y).
Definition not32 (x : Z) : Z := modulus - 1 - x.
Definition rotl (n x : Z) : Z :=
  Z.lor (wrap (Z.shiftl x n)) (Z.shiftr x (32 - n)).
Definition rotr (n x : Z) : Z := rotl (32 - n) x.

Definition of_be (b : list Z) : Z := fold_left (fun acc x => acc * 256 + x) b 0.
Definition of_le (b : list Z) : Z := of_be (rev b).

(** the [n] low bytes of [x], least significant first *)
Fixpoint to_le (n : nat) (x : Z) : list Z :=
  match n with
  | O => []
  | S n' => x mod 256 :: to_le n' (x / 256)
  end.
Definition to_be (n : nat) (x : Z) : list Z := rev (to_le n x).

End Word32.

(** ** MD5 (RFC 1321), as [hashlib.md5] computes it *)

Module MD5.
Import Word32.
Local Open Scope Z_scope.
Local Open Scope list_scope.

Definition T : list Z :=
  [ 0xD76AA478; 0xE8C7B756; 0x242070DB; 0xC1BDCEEE;
    0xF57C0FAF; 0x4787C62A; 0xA8304613; 0xFD469501;
    0x698098D8; 0x8B44F7AF; 0xFFFF5BB1; 0x895CD7BE;
    0x6B901122; 0xFD987193; 0xA679438E; 0x49B40821;
    0xF61E2562; 0xC040B340; 0x265E5A51; 0xE9B6C7AA;
    0xD62F105D; 0x02441453; 0xD8A1E681; 0xE7D3FBC8;
    0x21E1CDE6; 0xC33707D6; 0xF4D50D87; 0x455A14ED;
    0xA9E3E905; 0xFCEFA3F8; 0x676F02D9; 0x8D2A4C8A;
    0xFFFA3942; 0x8771F681; 0x6D9D6122; 0xFDE5380C;
    0xA4BEEA44; 0x4BDECFA9; 0xF6BB4B60; 0xBEBFBC70;
    0x289B7EC6; 0xEAA127FA; 0xD4EF3085; 0x04881D05;
    0xD9D4D039; 0xE6DB99E5; 0x1FA27CF8; 0xC4AC5665;
    0xF4292244; 0x432AFF97; 0xAB9423A7; 0xFC93A039;
    0x655B59C3; 0x8F0CCC92; 0xFFEFF47D; 0x85845DD1;
    0x6FA87E4F; 0xFE2CE6E0; 0xA3014314; 0x4E0811A1;
    0xF7537E82; 0xBD3AF235; 0x2AD7D2BB; 0xEB86D391 ].

Definition shifts : list Z :=
  [ 7; 12; 17; 22; 7; 12; 17; 22; 7; 12; 17; 22; 7; 12; 17; 22;
    5; 9; 14; 20; 5; 9; 14; 20; 5; 9; 14; 20; 5; 9; 14; 20;
    4; 11; 16; 23; 4; 11; 16; 23; 4; 11; 16; 23; 4; 11; 16; 23;
    6; 10; 15; 21; 6; 10; 15; 21; 6; 10; 15; 21; 6; 10; 15; 21 ].

Record state := mk { A : Z; B : Z; C : Z; D : Z }.

Definition init : state :=
  mk 0x67452301 0xEFCDAB89 0x98BADCFE 0x10325476.

Definition mix (i b c d : Z) : Z :=
  if i <? 16 then Z.lor (Z.land b c) (Z.land (not32 b) d)
  else if i <? 32 then Z.lor (Z.land d b) (Z.land (not32 d) c)
  else if i <? 48 then Z.lxor b (Z.lxor c d)
  else Z.lxor c (Z.lor b (not32 d)).

Definition pick (i : Z) : Z :=
  if i <? 16 then i
  else if i <? 32 then (5 * i + 1) mod 16
  else if i <? 48 then (3 * i + 5) mod 16
  else (7 * i) mod 16.

Definition step (M : list Z) (s : state) (i : nat) : state :=
  let iz := Z.of_nat i in
  let f := add (add (add (mix iz (B s) (C s) (D s)) (A s)) (nth i T 0))
               (nth (Z.to_nat (pick iz)) M 0) in
  mk (D s) (add (B s) (rotl (nth i shifts 0) f)) (B s) (C s).

Definition compress (h : state) (block : list Z) : state :=
  let M := map of_le (chunks 16 4 block) in
  let s := fold_left (step M) (seq 0 64) h in
  mk (add (A h) (A s)) (add (B h) (B s)) (add (C h) (C s)) (add (D h) (D s)).

Definition pad (msg : list Z) : list Z :=
  let len := Z.of_nat (List.length msg) in
  msg ++ [128] ++ repeat 0 (Z.to_nat ((55 - len) mod 64))
      ++ to_le 8 (8 * len).

Definition digest (msg : list Z) : list Z :=
  let p := pad msg in
  let h := fold_left compress (chunks (List.length p) 64 p) init in
  to_le 4 (A h) ++ to_le 4 (B h) ++ to_le 4 (C h) ++ to_le 4 (D h).

End MD5.

(** ** SHA-256 (FIPS 180-4), as [hashlib.sha256] computes it *)

Module SHA256.
Import Word32.
Local Open Scope Z_scope.
Local Open Scope list_scope.

Definition K : list Z :=
  [ 0x428A2F98; 0x71374491; 0xB5C0FBCF; 0xE9B5DBA5;
    0x3956C25B; 0x59F111F1; 0x923F82A4; 0xAB1C5ED5;
    0xD807AA98; 0x12835B01; 0x243185BE; 0x550C7DC3;
    0x72BE5D74; 0x80DEB1FE; 0x9BDC06A7; 0xC19BF174;
    0xE49B69C1; 0xEFBE4786; 0x0FC19DC6; 0x240CA1CC;
    0x2DE92C6F; 0x4A7484AA; 0x5CB0A9DC; 0x76F988DA;
    0x983E5152; 0xA831C66D; 0xB00327C8; 0xBF597FC7;
    0xC6E00BF3; 0xD5A79147; 0x06CA6351; 0x14292967;
    0x27B70A85; 0x2E1B2138; 0x4D2C6DFC; 0x53380D13;
    0x650A7354; 0x766A0ABB; 0x81C2C92E; 0x92722C85;
    0xA2BFE8A1; 0xA81A664B; 0xC24B8B70; 0xC76C51A3;
    0xD192E819; 0xD6990624; 0xF40E3585; 0x106AA070;
    0x19A4C116; 0x1E376C08; 0x2748774C; 0x34B0BCB5;
    0x391C0CB3; 0x4ED8AA4A; 0x5B9CCA4F; 0x682E6FF3;
    0x748F82EE; 0x78A5636F; 0x84C87814; 0x8CC70208;
    0x90BEFFFA; 0xA4506CEB; 0xBEF9A3F7; 0xC67178F2 ].

Definition init : list Z :=
  [ 0x6A09E667; 0xBB67AE85; 0x3C6EF372; 0xA54FF53A;
    0x510E527F; 0x9B05688C; 0x1F83D9AB; 0x5BE0CD19 ].

Definition ch (x y z : Z) : Z := Z.lxor (Z.land x y) (Z.land (not32 x) z).
Definition maj (x y z : Z) : Z :=
  Z.lxor (Z.land x y) (Z.lxor (Z.land x z) (Z.land y z)).
Definition bsig0 (x : Z) : Z := Z.lxor (rotr 2 x) (Z.lxor (rotr 13 x) (rotr 22 x)).
Definition bsig1 (x : Z) : Z := Z.lxor (rotr 6 x) (Z.lxor (rotr 11 x) (rotr 25 x)).
Definition ssig0 (x : Z) : Z := Z.lxor (rotr 7 x) (Z.lxor (rotr 18 x) (Z.shiftr x 3)).
Definition ssig1 (x : Z) : Z := Z.lxor (rotr 17 x) (Z.lxor (rotr 19 x) (Z.shiftr x 10)).

(** The message schedule, newest word first: from [W(t-1) .. W(t-16) ..]
    to [W(t) W(t-1) ..], [n] times. *)
Fixpoint extend (n : nat) (back : list Z) : list Z :=
  match n with
  | O => back
  | S n' =>
      let wt := add (add (ssig1 (nth 1 back 0)) (nth 6 back 0))
                    (add (ssig0 (nth 14 back 0)) (nth 15 back 0)) in
      extend n' (wt :: back)
  end.

Definition schedule (block : list Z) : list Z :=
  rev (extend 48 (rev (map of_be (chunks 16 4 block)))).

Definition round (v : list Z) (kw : Z * Z) : list Z :=
  match v with
  | [a; b; c; d; e; f; g; h] =>
      let t1 := add (add (add h (bsig1 e)) (add (ch e f g) (fst kw))) (snd kw) in
      let t2 := add (bsig0 a) (maj a b c) in
      [add t1 t2; a; b; c; add d t1; e; f; g]
  | _ => v
  end.

Definition compress (h : list Z) (block : list Z) : list Z :=
  let v := fold_left round (combine K (schedule block)) h in
  map (fun p => add (fst p) (snd p)) (combine h v).

Definition pad (msg : list Z) : list Z :=
  let len := Z.of_nat (List.length msg) in
  msg ++ [128] ++ repeat 0 (Z.to_nat ((55 - len) mod 64))
      ++ to_be 8 (8 * len).

Definition digest (msg : list Z) : list Z :=
  let p := pad msg in
  flat_map (to_be 4) (fold_left compress (chunks (List.length p) 64 p) init).

End SHA256.

(** ** HMAC (RFC 2104) over SHA-256, as Python's [hmac] module *)

Module HMAC.
Local Open Scope Z_scope.
Local Open Scope list_scope.

Definition block_size : nat := 64.

(** keys longer than a block are hashed first; then zero padded *)
Definition key_block (key : list Z) : list Z :=
  let k := if (block_size <? List.length key)%nat then SHA256.digest key else key in
  k ++ repeat 0 (block_size - List.length k).

Definition xor_pad (p : Z) (k : list Z) : list Z := map (Z.lxor p) k.

(** the one-shot function HMAC-SHA256(key, msg) *)
Definition hmac_sha256 (key msg : list Z) : list Z :=
  let k := key_block key in
  SHA256.digest (xor_pad 0x5C k ++ SHA256.digest (xor_pad 0x36 k ++ msg)).

(** An [hmac.HMAC] object: the key it was created with and the data fed
    to it so far. *)
Record t := mk { key : bytes; fed : bytes }.

(** [hmac.new(key, digestmod=hashlib.sha256)] *)
Definition new (k : bytes) : t := mk k [].

(** [h.update(data)] *)
Definition update (h : t) (data : bytes) : t := mk (key h) (fed h ++ data).

(** [h.hexdigest()] *)
Definition hexdigest (h : t) : string :=
  hexlify (hmac_sha256 (map byte_val (key h)) (map byte_val (fed h))).

End HMAC.

(** [hashlib.md5(); update(data); hexdigest()] *)
Definition md5_hexdigest (data : bytes) : string :=
  hexlify (MD5.digest (map byte_val data)).

(** [hashlib.sha256(data).hexdigest()] *)
Definition sha256_hexdigest (data : bytes) : string :=
  hexlify (SHA256.digest (map byte_val data)).

(** ** Exceptions and results *)

(** What [requests.get] itself can raise. *)
Inductive requests_exn :=
| Timeout            (* requests.exceptions.Timeout: ConnectTimeout, ReadTimeout *)
| ConnectionError    (* no route, refused, DNS failure, ... *)
| OtherRequestException (what : string).

(** Modelled from the spec: [exceptions/envbee_exceptions.py] is not among
    the sources; [RequestError] carries a status code and a message,
    [RequestTimeoutError] a message, and both are ordinary exceptions. *)
Inductive exn :=
| RequestError (status_code : Z) (message : string)
| RequestTimeoutError (message : string)
| RequestsException (e : requests_exn)
| JSONDecodeError
| AttributeError
| KeyError (key : string)
| TypeError
| ValueError (message : string)
| CacheError    (* sqlite3.Error, OSError, ...: a cache access that fails *).

Inductive res (A : Type) :=
| Ret (a : A)
| Raise (e : exn).
Arguments Ret {A} a.
Arguments Raise {A} e.

(** ** Python [str] operations *)

Definition code (c : ascii) : Z := Z.of_N (N_of_ascii c).

Definition is_ascii_char (c : ascii) : bool := (code c <? 128)%Z.

Fixpoint str_isascii (s : string) : bool :=
  match s with
  | EmptyString => true
  | String c rest => is_ascii_char c && str_isascii rest
  end.

(** [c in s] *)
Fixpoint str_contains (c : ascii) (s : string) : bool :=
  match s with
  | EmptyString => false
  | String d rest => Ascii.eqb c d || str_contains c rest
  end.

(** [s.partition(c)]: the text before the first [c] and the text after it,
    when [c] occurs. *)
Fixpoint str_cut (c : ascii) (s : string) : option (string * string) :=
  match s with
  | EmptyString => None
  | String d rest =>
      if Ascii.eqb c d then Some (EmptyString, rest)
      else match str_cut c rest with
           | Some (before, after) => Some (String d before, after)
           | None => None
           end
  end.

(** [s.split(c)] *)
Fixpoint str_split (c : ascii) (s : string) : list string :=
  match s with
  | EmptyString => [EmptyString]
  | String d rest =>
      match str_split c rest with
      | [] => [String d EmptyString]
      | piece :: pieces =>
          if Ascii.eqb c d then EmptyString :: piece :: pieces
          else String d piece :: pieces
      end
  end.

(** [sep.join(l)] *)
Fixpoint str_join (sep : string) (l : list string) : string :=
  match l with
  | [] => EmptyString
  | [x] => x
  | x :: rest => x +++ sep +++ str_join sep rest
  end.

(** [s.replace(a, b)] for single characters *)
Fixpoint str_replace (a b : ascii) (s : string) : string :=
  match s with
  | EmptyString => EmptyString
  | String d rest => String (if Ascii.eqb a d then b else d) (str_replace a b rest)
  end.

(** [s.replace(a, "")] *)
Fixpoint str_remove (a : ascii) (s : string) : string :=
  match s with
  | EmptyString => EmptyString
  | String d rest =>
      if Ascii.eqb a d then str_remove a rest else String d (str_remove a rest)
  end.

(** [s.lstrip(chars)] where [chars] are the characters that satisfy [p] *)
Fixpoint str_lstrip (p : ascii -> bool) (s : string) : string :=
  match s with
  | EmptyString => EmptyString
  | String d rest => if p d then str_lstrip p rest else s
  end.

Fixpoint str_forall (p : ascii -> bool) (s : string) : bool :=
  match s with
  | EmptyString => true
  | String d rest => p d && str_forall p rest
  end.

Definition in_range (lo hi : Z) (c : ascii) : bool :=
  ((lo <=? code c) && (code c <=? hi))%Z.

Definition is_upper (c : ascii) : bool := in_range 65 90 c.
Definition is_lower (c : ascii) : bool := in_range 97 122 c.
Definition is_digit (c : ascii) : bool := in_range 48 57 c.
Definition is_alpha (c : ascii) : bool := is_upper c || is_lower c.

Definition lower_char (c : ascii) : ascii :=
  if is_upper c then ascii_of_N (N_of_ascii c + 32) else c.

(** [s.lower()] on ASCII text *)
Fixpoint str_lower (s : string) : string :=
  match s with
  | EmptyString => EmptyString
  | String d rest => String (lower_char d) (str_lower rest)
  end.

(** [s in l] for a list of strings *)
Definition str_in (s : string) (l : list string) : bool :=
  existsb (String.eqb s) l.

Definition nonempty (s : string) : bool :=
  match s with EmptyString => false | _ => true end.

(** ** Percent-encoding, as [urllib.parse] does it *)

Definition hex_val (c : ascii) : option Z :=
  if is_digit c then Some (code c - 48)%Z
  else if in_range 65 70 c then Some (code c - 55)%Z
  else if in_range 97 102 c then Some (code c - 87)%Z
  else None.

(** [unquote_to_bytes]: a [%] followed by two hexadecimal digits becomes
    the byte they spell; any other [%] stays. *)
Fixpoint unquote_to_bytes (s : string) : bytes :=
  match s with
  | EmptyString => []
  | String c rest =>
      if Ascii.eqb c "%" then
        match rest with
        | String h1 (String h2 rest') =>
            match hex_val h1, hex_val h2 with
            | Some a, Some b => byte_of_Z (16 * a + b) :: unquote_to_bytes rest'
            | _, _ => byte_of_ascii c :: unquote_to_bytes rest
            end
        | _ => byte_of_ascii c :: unquote_to_bytes rest
        end
      else byte_of_ascii c :: unquote_to_bytes rest
  end.

Module UTF8.
Local Open Scope Z_scope.
Local Open Scope list_scope.

Definition is_cont (b : Z) : bool := (128 <=? b) && (b <=? 191).

(** U+FFFD, encoded *)
Definition replacement : list Z := [239; 191; 189].

(** [bytes.decode("utf-8", errors="replace")], given and returned as UTF-8
    bytes: well-formed sequences pass, and every maximal ill-formed
    piece (an invalid start byte, or a lead byte with the continuation
    bytes that could still follow it) becomes one U+FFFD. *)
Fixpoint scrub (l : list Z) : list Z :=
  match l with
  | [] => []
  | b0 :: r0 =>
      if b0 <? 128 then b0 :: scrub r0
      else if b0 <? 194 then replacement ++ scrub r0
      else if b0 <? 224 then
        match r0 with
        | [] => replacement
        | b1 :: r1 =>
            if is_cont b1 then b0 :: b1 :: scrub r1
            else replacement ++ scrub r0
        end
      else if b0 <? 240 then
        match r0 with
        | [] => replacement
        | b1 :: r1 =>
            if negb (is_cont b1) || (if b1 <? 160 then b0 =? 224 else b0 =? 237)
            then replacement ++ scrub r0
            else match r1 with
                 | [] => replacement
                 | b2 :: r2 =>
                     if is_cont b2 then b0 :: b1 :: b2 :: scrub r2
                     else replacement ++ scrub r1
                 end
        end
      else if b0 <? 245 then
        match r0 with
        | [] => replacement
        | b1 :: r1 =>
            if negb (is_cont b1) || (if b1 <? 144 then b0 =? 240 else b0 =? 244)
            then replacement ++ scrub r0
            else match r1 with
                 | [] => replacement
                 | b2 :: r2 =>
                     if negb (is_cont b2) then replacement ++ scrub r1
                     else match r2 with
                          | [] => replacement
                          | b3 :: r3 =>
                              if is_cont b3 then b0 :: b1 :: b2 :: b3 :: scrub r3
                              else replacement ++ scrub r2
                          end
                 end
        end
      else replacement ++ scrub r0
  end.

End UTF8.

Definition decode_utf8_replace (b : bytes) : string :=
  string_of_list_byte (map byte_of_Z (UTF8.scrub (map byte_val b))).

(** One maximal run of ASCII characters of [unquote]'s argument. *)
Definition unquote_run (run_rev : list ascii) : string :=
  decode_utf8_replace (unquote_to_bytes (string_of_list_ascii (rev run_rev))).

(** The loop of [unquote] over the pieces of [_asciire.split(string)]:
    ASCII runs are unquoted and decoded, the text between them is kept. *)
Fixpoint unquote_scan (run_rev : list ascii) (s : string) : string :=
  match s with
  | EmptyString => unquote_run run_rev
  | String c rest =>
      if is_ascii_char c then unquote_scan (c :: run_rev) rest
      else unquote_run run_rev +++ String c (unquote_scan [] rest)
  end.

(** [urllib.parse.unquote(string)] with its defaults
    [encoding="utf-8", errors="replace"] *)
Definition unquote (s : string) : string :=
  if str_contains "%" s then unquote_scan [] s else s.

Definition always_safe (c : ascii) : bool :=
  is_upper c || is_lower c || is_digit c || str_contains c "_.-~".

Definition quote_plus_char (c : ascii) : string :=
  if always_safe c then String c EmptyString
  else if Ascii.eqb c " " then "+"
  else "%" +++ hex_pair hex_upper (code c).

(** [urllib.parse.quote_plus(s)] with [safe=""] *)
Fixpoint quote_plus (s : string) : string :=
  match s with
  | EmptyString => EmptyString
  | String c rest => quote_plus_char c +++ quote_plus rest
  end.

(** ** Python dictionaries, in insertion order *)

Section Dict.
Context {V : Type}.

(** [d.get(k)] *)
Fixpoint dict_get (k : string) (d : list (string * V)) : option V :=
  match d with
  | [] => None
  | (k', v) :: rest => if String.eqb k k' then Some v else dict_get k rest
  end.

(** [d[k] = v]: an existing key keeps its place *)
Fixpoint dict_set (k : string) (v : V) (d : list (string * V)) : list (string * V) :=
  match d with
  | [] => [(k, v)]
  | (k', v') :: rest =>
      if String.eqb k k' then (k', v) :: rest else (k', v') :: dict_set k v rest
  end.

(** [d.update(other)] *)
Definition dict_update (d other : list (string * V)) : list (string * V) :=
  fold_left (fun acc kv => dict_set (fst kv) (snd kv) acc) other d.

End Dict.

(** The values a query dictionary holds here: the lists of strings that
    [parse_qs] builds, and the integers and strings a caller passes. *)
Inductive qvalue :=
| QInt (n : Z)
| QStr (s : string)
| QList (l : list string).

(** ** Query strings *)

(** [parse_qsl(qs)] with [keep_blank_values=False, strict_parsing=False] *)
Definition parse_field (name_value : string) : list (string * string) :=
  if nonempty name_value then
    match str_cut "=" name_value with
    | Some (n, v) =>
        if nonempty v
        then [(unquote (str_replace "+" " " n), unquote (str_replace "+" " " v))]
        else []
    | None => []
    end
  else [].

Definition parse_qsl (qs : string) : list (string * string) :=
  let query_args := if nonempty qs then str_split "&" qs else [] in
  flat_map parse_field query_args.

(** the loop of [parse_qs] over the pairs *)
Definition parse_qs_add (parsed_result : list (string * list string))
    (pair : string * string) : list (string * list string) :=
  match dict_get (fst pair) parsed_result with
  | Some values => dict_set (fst pair) (values ++ [snd pair]) parsed_result
  | None => dict_set (fst pair) [snd pair] parsed_result
  end.

Definition parse_qs (qs : string) : list (string * list string) :=
  fold_left parse_qs_add (parse_qsl qs) [].

(** the fields [urlencode(query, doseq=True)] emits for one item *)
Definition urlencode_item (kv : string * qvalue) : list string :=
  let k := quote_plus (fst kv) in
  match snd kv with
  | QStr v => [k +++ "=" +++ quote_plus v]
  | QInt n => [k +++ "=" +++ quote_plus (str_of_int n)]
  | QList l => map (fun elt => k +++ "=" +++ quote_plus elt) l
  end.

(** [urlencode(query, doseq=True)] *)
Definition urlencode (query : list (string * qvalue)) : string :=
  str_join "&" (flat_map urlencode_item query).

(** ** URLs: [urlparse] and [urlunparse] *)

Record ParseResult := mkParseResult {
  scheme : string;
  netloc : string;
  path : string;
  params : string;
  query : string;
  fragment : string
}.

(** [url_parts[4] = q] *)
Definition set_query (q : string) (u : ParseResult) : ParseResult :=
  mkParseResult (scheme u) (netloc u) (path u) (params u) q (fragment u).

Definition uses_netloc : list string :=
  [ ""; "ftp"; "http"; "gopher"; "nntp"; "telnet"; "imap"; "wais"; "file";
    "mms"; "https"; "shttp"; "snews"; "prospero"; "rtsp"; "rtspu"; "rsync";
    "svn"; "svn+ssh"; "sftp"; "nfs"; "git"; "git+ssh"; "ws"; "wss" ].

Definition uses_params : list string :=
  [ ""; "ftp"; "hdl"; "prospero"; "http"; "imap"; "https"; "shttp"; "rtsp";
    "rtspu"; "sip"; "sips"; "mms"; "sftp"; "tel" ].

Definition scheme_char (c : ascii) : bool :=
  is_lower c || is_upper c || is_digit c || str_contains c "+-.".

(** the C0 control characters and the space *)
Definition c0_control_or_space (c : ascii) : bool := (code c <=? 32)%Z.

(** The text before the first character that satisfies [p], and the text
    from that character on. *)
Fixpoint str_break (p : ascii -> bool) (s : string) : string * string :=
  match s with
  | EmptyString => (EmptyString, EmptyString)
  | String d rest =>
      if p d then (EmptyString, s)
      else let (before, after) := str_break p rest in (String d before, after)
  end.

(** The text before the last [c] and the text after it. *)
Fixpoint str_rcut (c : ascii) (s : string) : option (string * string) :=
  match s with
  | EmptyString => None
  | String d rest =>
      match str_rcut c rest with
      | Some (before, after) => Some (String d before, after)
      | None => if Ascii.eqb c d then Some (EmptyString, rest) else None
      end
  end.

(** the scheme of [urlsplit]: a leading run of scheme characters that
    starts with a letter and ends at the first colon *)
Definition split_scheme (url : string) : string * string :=
  match str_cut ":" url with
  | Some (String c0 pre, post) =>
      if is_ascii_char c0 && is_alpha c0 && str_forall scheme_char (String c0 pre)
      then (str_lower (String c0 pre), post)
      else (EmptyString, url)
  | _ => (EmptyString, url)
  end.

(** [_splitnetloc(url, 2)] for a [url] that starts with two slashes *)
Definition _splitnetloc (url : string) : string * string :=
  match url with
  | String _ (String _ rest) =>
      str_break (fun c => Ascii.eqb c "/" || Ascii.eqb c "?" || Ascii.eqb c "#") rest
  | _ => (EmptyString, url)
  end.

Definition starts_with_two_slashes (url : string) : bool :=
  match url with
  | String a (String b _) => Ascii.eqb a "/" && Ascii.eqb b "/"
  | _ => false
  end.

(** [_splitparams(url)], called when [url] has a semicolon *)
Definition _splitparams (url : string) : string * string :=
  match str_rcut "/" url with
  | Some (dir, last) =>
      match str_cut ";" last with
      | Some (name, ps) => (dir +++ "/" +++ name, ps)
      | None => (url, EmptyString)
      end
  | None =>
      match str_cut ";" url with
      | Some (name, ps) => (name, ps)
      | None => (url, EmptyString)
      end
  end.

Section Urllib.

(** [urlsplit] validates a host in brackets with [ipaddress] and a
    non-ASCII netloc with [unicodedata.normalize]; neither is modelled.
    [netloc_ok n] stands for: every such check that applies to [n]
    passes.  It is consulted only for a netloc that holds both brackets
    or a non-ASCII character. *)
Variable netloc_ok : string -> bool.

Definition _check_bracketed_netloc (n : string) : res unit :=
  if netloc_ok n then Ret tt else Raise (ValueError "Invalid IPv6 URL").

Definition _checknetloc (n : string) : res unit :=
  if negb (nonempty n) || str_isascii n then Ret tt
  else if netloc_ok n then Ret tt
  else Raise (ValueError "netloc contains invalid characters under NFKC normalization").

(** [urlparse(url)]: [urlsplit], then the split of the path parameters *)
Definition urlparse (url : string) : res ParseResult :=
  let url := str_lstrip c0_control_or_space url in
  let url := str_remove "010" (str_remove "013" (str_remove "009" url)) in
  let (scheme, url) := split_scheme url in
  let (netloc, url) :=
    if starts_with_two_slashes url then _splitnetloc url else (EmptyString, url) in
  let has_open := str_contains "[" netloc in
  let has_close := str_contains "]" netloc in
  if (has_open && negb has_close) || (has_close && negb has_open)
  then Raise (ValueError "Invalid IPv6 URL")
  else
    match (if has_open && has_close then _check_bracketed_netloc netloc else Ret tt) with
    | Raise e => Raise e
    | Ret _ =>
        let (url, fragment) :=
          match str_cut "#" url with
          | Some (u, f) => (u, f)
          | None => (url, EmptyString)
          end in
        let (url, query) :=
          match str_cut "?" url with
          | Some (u, q) => (u, q)
          | None => (url, EmptyString)
          end in
        match _checknetloc netloc with
        | Raise e => Raise e
        | Ret _ =>
            let (url, params) :=
              if str_in scheme uses_params && str_contains ";" url
              then _splitparams url
              else (url, EmptyString) in
            Ret (mkParseResult scheme netloc url params query fragment)
        end
    end.

(** [urlunparse(components)] *)
Definition urlunparse (u : ParseResult) : string :=
  let url := if nonempty (params u) then path u +++ ";" +++ params u else path u in
  let url :=
    if nonempty (netloc u)
       || (nonempty (scheme u) && str_in (scheme u) uses_netloc
           && negb (starts_with_two_slashes url))
    then
      let url :=
        match url with
        | String c _ => if Ascii.eqb c "/" then url else "/" +++ url
        | EmptyString => url
        end in
      "//" +++ netloc u +++ url
    else url in
  let url := if nonempty (scheme u) then scheme u +++ ":" +++ url else url in
  let url := if nonempty (query u) then url +++ "?" +++ query u else url in
  if nonempty (fragment u) then url +++ "#" +++ fragment u else url.

(** ** [utils.py] *)

(** [add_querystring(url, params)] *)
Definition add_querystring (url : string) (params : list (string * qvalue))
  : res string :=
  match urlparse url with
  | Raise e => Raise e
  | Ret url_parts =>
      let query := map (fun kv => (fst kv, QList (snd kv))) (parse_qs (query url_parts)) in
      let query := dict_update query params in
      let url_parts := set_query (urlencode query) url_parts in
      Ret (urlunparse url_parts)
  end.

End Urllib.

(** ** Python values

    What [response.json()] returns and what the cache stores.  A
    [float] is kept as its IEEE 754 binary64 bit pattern, a number below
    [2^64]: what [struct.pack(">d", x)] shows of it.  A JSON number with
    a fraction or an exponent is one, and so are the literals [NaN],
    [Infinity] and [-Infinity], which the parser accepts. *)

Set Warnings "-register-all".

Inductive pyval :=
| PNone
| PBool (b : bool)
| PInt (n : Z)
| PFloat (bits : Z)
| PStr (s : string)
| PList (l : list pyval)
| PDict (d : list (string * pyval)).

(** structural equality: two values have the same pickle *)
Fixpoint pyval_eqb (a b : pyval) : bool :=
  match a, b with
  | PNone, PNone => true
  | PBool x, PBool y => Bool.eqb x y
  | PInt x, PInt y => Z.eqb x y
  | PFloat x, PFloat y => Z.eqb x y
  | PStr x, PStr y => String.eqb x y
  | PList x, PList y =>
      (fix all2 (l1 l2 : list pyval) : bool :=
         match l1, l2 with
         | [], [] => true
         | u :: us, v :: vs => pyval_eqb u v && all2 us vs
         | _, _ => false
         end) x y
  | PDict x, PDict y =>
      (fix all2 (l1 l2 : list (string * pyval)) : bool :=
         match l1, l2 with
         | [], [] => true
         | (j, u) :: us, (k, v) :: vs => String.eqb j k && pyval_eqb u v && all2 us vs
         | _, _ => false
         end) x y
  | _, _ => false
  end.

(** [v.get(k, default)]: only a [dict] has the method *)
Definition py_get (v : pyval) (k : string) (default : pyval) : res pyval :=
  match v with
  | PDict d =>
      match dict_get k d with
      | Some x => Ret x
      | None => Ret default
      end
  | _ => Raise AttributeError
  end.

(** [v[k]] for a [str] key *)
Definition py_getitem (v : pyval) (k : string) : res pyval :=
  match v with
  | PDict d =>
      match dict_get k d with
      | Some x => Ret x
      | None => Raise (KeyError k)
      end
  | _ => Raise TypeError
  end.

(** the characters of a [str], each with its continuation bytes *)
Fixpoint str_chars (s : string) : list string :=
  match s with
  | EmptyString => []
  | String c rest =>
      match str_chars rest with
      | String d x :: xs =>
          if UTF8.is_cont (code d) then String c (String d x) :: xs
          else String c EmptyString :: String d x :: xs
      | other => String c EmptyString :: other
      end
  end.

(** what [for x in v] yields *)
Definition py_iter (v : pyval) : res (list pyval) :=
  match v with
  | PList l => Ret l
  | PDict d => Ret (map (fun kv => PStr (fst kv)) d)
  | PStr s => Ret (map PStr (str_chars s))
  | _ => Raise TypeError
  end.

(** [if n:] for an [int]; [None], the default of an optional argument, is
    false as well. *)
Definition truthy (n : Z) : bool := negb (n =? 0)%Z.

(** ** The world the client runs in *)

(** An HTTP response as the client reads it: [json] is what
    [response.json()] returns, [None] when the body is not JSON and the
    call raises. *)
Record Response := mkResponse {
  status_code : Z;
  text : string;
  json : option pyval
}.

Inductive http_outcome :=
| Responded (r : Response)
| Failed (e : requests_exn).

(** What one call of a public operation finds outside: the clock, read as
    [int(time.time() * 1000)], and what the network round trip comes to. *)
Record Env := mkEnv {
  now_ms : Z;
  remote : http_outcome
}.

Inductive event :=
| HttpGet (url : string) (headers : list (string * string)) (timeout : Z)
| CacheSet (key value : pyval)
| CacheGet (key : pyval)
| CacheItems.

(** The cache directory of this client's API key, in the order
    [diskcache] enumerates it (the order of first insertion); [faults]
    tells for each coming cache access whether it fails ([true]), none is
    left meaning no failure; [trace] lists what was done, oldest first. *)
Record World := mkWorld {
  cache : list (pyval * pyval);
  faults : list bool;
  trace : list event
}.

Definition M (A : Type) : Type := World -> res A * World.

Definition ret {A} (a : A) : M A := fun w => (Ret a, w).
Definition raise {A} (e : exn) : M A := fun w => (Raise e, w).
Definition lift {A} (r : res A) : M A := fun w => (r, w).

Definition bind {A B} (m : M A) (k : A -> M B) : M B :=
  fun w =>
    match m w with
    | (Ret a, w') => k a w'
    | (Raise e, w') => (Raise e, w')
    end.

Notation "x <- m ;; k" := (bind m (fun x => k))
  (at level 61, m at next level, right associativity).
Notation "m ;;; k" := (bind m (fun _ => k))
  (at level 61, right associativity).

(** [try: m except Exception as e: handler e] *)
Definition try_except {A} (m : M A) (handler : exn -> M A) : M A :=
  fun w =>
    match m w with
    | (Ret a, w') => (Ret a, w')
    | (Raise e, w') => handler e w'
    end.

(** [for x in l: body x] *)
Fixpoint for_each {A} (l : list A) (body : A -> M unit) : M unit :=
  match l with
  | [] => ret tt
  | x :: rest => body x ;;; for_each rest body
  end.

Definition emit (e : event) : M unit :=
  fun w => (Ret tt, mkWorld (cache w) (faults w) (trace w ++ [e])).

(** ** The cache, as [diskcache.Cache]

    The library keeps one SQLite table, a row for each key, in the order
    the rows were made.  [Disk.put] hands a key that is a [str], a
    [float] or an [int] of 64 bits to SQLite as it is, and the pickle of
    a key of any other type; a row is found with
    [WHERE key = ? AND raw = ?], by SQLite's own comparison: it compares
    numbers by value, an [int] with a [float] too, and takes a NaN as
    NULL, which is equal to nothing.  A row keeps the key it was made
    with.  [Disk.store] hands a [float] value to SQLite as it is, so
    that a NaN comes back as [None], and writes a [str] of
    [min_file_size] characters or more to a file that is read back in
    text mode, with universal newlines (written down here as on POSIX
    systems, where writing changes nothing).  Every other value comes
    back as it was written.

    The table is taken to stay below the size limit of the library
    ([2^30] bytes), above which it evicts rows; the client sets no
    expiry, so that no row expires. *)

Definition float_exponent (bits : Z) : Z := Z.land (Z.shiftr bits 52) 2047.
Definition float_fraction (bits : Z) : Z := Z.land bits (2 ^ 52 - 1).
Definition float_negative (bits : Z) : bool := Z.testbit bits 63.

Definition float_is_nan (bits : Z) : bool :=
  (float_exponent bits =? 2047)%Z && negb (float_fraction bits =? 0)%Z.

Definition float_is_inf (bits : Z) : bool :=
  (float_exponent bits =? 2047)%Z && (float_fraction bits =? 0)%Z.

(** The value of a finite float times [2^1074], which is an integer. *)
Definition float_scaled (bits : Z) : Z :=
  let magnitude :=
    if (float_exponent bits =? 0)%Z then float_fraction bits
    else Z.shiftl (2 ^ 52 + float_fraction bits) (float_exponent bits - 1) in
  if float_negative bits then (- magnitude)%Z else magnitude.

(** What a column of the table holds; a BLOB is a pickle here. *)
Inductive sqlval :=
| SqlNull
| SqlInteger (n : Z)
| SqlReal (bits : Z)
| SqlText (s : string)
| SqlBlob (pickled : pyval).

(** SQLite's [a = b] for two values without affinity, where it is true *)
Definition sql_eq (a b : sqlval) : bool :=
  match a, b with
  | SqlInteger x, SqlInteger y => (x =? y)%Z
  | SqlInteger x, SqlReal y | SqlReal y, SqlInteger x =>
      negb (float_is_inf y) && (x * 2 ^ 1074 =? float_scaled y)%Z
  | SqlReal x, SqlReal y =>
      if float_is_inf x || float_is_inf y
      then float_is_inf x && float_is_inf y
           && Bool.eqb (float_negative x) (float_negative y)
      else (float_scaled x =? float_scaled y)%Z
  | SqlText x, SqlText y => String.eqb x y
  | SqlBlob x, SqlBlob y => pyval_eqb x y
  | _, _ => false
  end.

Definition is_int64 (n : Z) : bool :=
  (- 2 ^ 63 <=? n)%Z && (n <=? 2 ^ 63 - 1)%Z.

(** [Disk.put(key)]: what the key column takes, and whether it is raw *)
Definition disk_put (key : pyval) : sqlval * bool :=
  match key with
  | PStr s => (SqlText s, true)
  | PInt n => if is_int64 n then (SqlInteger n, true) else (SqlBlob key, false)
  | PFloat x => (if float_is_nan x then SqlNull else SqlReal x, true)
  | _ => (SqlBlob key, false)
  end.

(** [WHERE key = ? AND raw = ?], asked for [k], on the row made with [k'] *)
Definition key_match (k k' : pyval) : bool :=
  let (db_key, raw) := disk_put k in
  let (row_key, row_raw) := disk_put k' in
  sql_eq row_key db_key && Bool.eqb row_raw raw.

(** [Disk.get(key, raw)]: the key of a row, as iterating the cache
    yields it *)
Definition key_read (k : pyval) : pyval :=
  match fst (disk_put k) with
  | SqlNull => PNone
  | _ => k
  end.

Definition min_file_size : Z := 32768.

(** [len(s)]: the characters of a [str] *)
Definition str_len (s : string) : Z := Z.of_nat (List.length (str_chars s)).

(** what reading in text mode makes of the line ends *)
Fixpoint universal_newlines (s : string) : string :=
  match s with
  | EmptyString => EmptyString
  | String c rest =>
      if Ascii.eqb c "013" then
        match rest with
        | String d rest' =>
            if Ascii.eqb d "010" then String "010" (universal_newlines rest')
            else String "010" (universal_newlines rest)
        | EmptyString => String "010" EmptyString
        end
      else String c (universal_newlines rest)
  end.

(** [Disk.fetch] of what [Disk.store] made of [value] *)
Definition value_read (value : pyval) : pyval :=
  match value with
  | PFloat x => if float_is_nan x then PNone else value
  | PStr s =>
      if (str_len s <? min_file_size)%Z then value else PStr (universal_newlines s)
  | _ => value
  end.

(** The rows, oldest first, each with the key it was made with and the
    value last written to it.  [reference.get(k)]: *)
Fixpoint store_get (k : pyval) (c : list (pyval * pyval)) : option pyval :=
  match c with
  | [] => None
  | (k', v) :: rest => if key_match k k' then Some (value_read v) else store_get k rest
  end.

(** [reference.set(k, v)] *)
Fixpoint store_set (k v : pyval) (c : list (pyval * pyval)) : list (pyval * pyval) :=
  match c with
  | [] => [(k, v)]
  | (k', v') :: rest =>
      if key_match k k' then (k', v) :: rest else (k', v') :: store_set k v rest
  end.

(** [list(reference)] *)
Definition store_keys (c : list (pyval * pyval)) : list pyval :=
  map (fun row => key_read (fst row)) c.

(** [reference[k]] for a key of [list(reference)]: the one that may not
    be found is the [None] a NaN is read back as *)
Definition store_getitem (k : pyval) (c : list (pyval * pyval)) : res pyval :=
  match store_get k c with
  | Some v => Ret v
  | None => Raise (KeyError "None")
  end.

(** one entry of [_get_variables_from_cache]'s list *)
Definition cache_entry (kv : pyval * pyval) : pyval :=
  PDict [("name", fst kv); ("value", snd kv)].

(** [[{"name": k, "value": reference[k]} for k in keys]] *)
Fixpoint store_entries (keys : list pyval) (c : list (pyval * pyval))
  : res (list pyval) :=
  match keys with
  | [] => Ret []
  | k :: rest =>
      match store_getitem k c with
      | Ret v =>
          match store_entries rest c with
          | Ret entries => Ret (cache_entry (k, v) :: entries)
          | Raise e => Raise e
          end
      | Raise e => Raise e
      end
  end.

(** One [with Cache(app_cache_dir) as reference:] block running [op]: it
    fails as a whole, raising, or runs [op] on the store. *)
Definition with_cache {A} (op : list (pyval * pyval) -> A * list (pyval * pyval))
  : M A :=
  fun w =>
    match faults w with
    | true :: later => (Raise CacheError, mkWorld (cache w) later (trace w))
    | _ =>
        let (a, c) := op (cache w) in
        (Ret a, mkWorld c (tl (faults w)) (trace w))
    end.

(** ** [main.py]: class [Envbee] *)

Record Envbee := mkEnvbee {
  base_url : string;
  api_key : string;
  api_secret : bytes
}.

Definition BASE_URL : string := "https://api.envbee.dev".

(** [Envbee(api_key, api_secret, base_url=None)] *)
Definition Envbee_init (key : string) (secret : bytes) (url : option string) : Envbee :=
  mkEnvbee
    (match url with
     | Some u => if nonempty u then u else BASE_URL
     | None => BASE_URL
     end)
    key secret.

(** [json.dumps({})] *)
Definition json_dumps_empty_dict : string := "{}".

(** [_generate_hmac_header(url_path)], at clock reading [now].  Nothing in
    its [try] block can raise here, so the [except] that logs and
    re-raises is never entered. *)
Definition _generate_hmac_header (self : Envbee) (now : Z) (url_path : string)
  : string :=
  let hmac_obj := HMAC.new (api_secret self) in
  let current_time := str_of_int now in
  let hmac_obj := HMAC.update hmac_obj (encode_utf8 current_time) in
  let hmac_obj := HMAC.update hmac_obj (encode_utf8 "GET") in
  let hmac_obj := HMAC.update hmac_obj (encode_utf8 url_path) in
  let content := encode_utf8 json_dumps_empty_dict in
  let content_hash := md5_hexdigest content in
  let hmac_obj := HMAC.update hmac_obj (encode_utf8 content_hash) in
  "HMAC " +++ current_time +++ ":" +++ HMAC.hexdigest hmac_obj.

(** [requests.get(url, headers=..., timeout=...)] *)
Definition requests_get (env : Env) (url : string)
    (headers : list (string * string)) (timeout : Z) : M Response :=
  emit (HttpGet url headers timeout) ;;;
  match remote env with
  | Responded r => ret r
  | Failed e => raise (RequestsException e)
  end.

(** [_send_request(url, hmac_header, timeout=2)] *)
Definition _send_request (self : Envbee) (env : Env) (url hmac_header : string)
    (timeout : Z) : M pyval :=
  try_except
    (response <- requests_get env url
                   [("Authorization", hmac_header); ("x-api-key", api_key self)]
                   timeout ;;
     if (status_code response =? 200)%Z then
       match json response with
       | Some body => ret body
       | None => raise JSONDecodeError
       end
     else
       raise (RequestError (status_code response)
                           ("Failed request: " +++ text response)))
    (fun e =>
       match e with
       | RequestsException Timeout =>
           raise (RequestTimeoutError
                    ("Request to " +++ url +++ " timed out after "
                     +++ str_of_int timeout +++ " seconds"))
       | _ => raise e
       end).

(** [_cache_variable(variable_name, variable_value)] *)
Definition _cache_variable (self : Envbee) (variable_name variable_value : pyval)
  : M unit :=
  try_except
    (emit (CacheSet variable_name variable_value) ;;;
     with_cache (fun reference => (tt, store_set variable_name variable_value reference)))
    (fun _ => ret tt).

(** [_get_variable_from_cache(variable_name)]; the [except] branch has no
    [return], so the call then yields [None]. *)
Definition _get_variable_from_cache (self : Envbee) (variable_name : pyval)
  : M pyval :=
  try_except
    (emit (CacheGet variable_name) ;;;
     value <- with_cache (fun reference =>
                (match store_get variable_name reference with
                 | Some v => v
                 | None => PNone
                 end, reference)) ;;
     ret value)
    (fun _ => ret PNone).

(** [_get_variables_from_cache()]; here too the [except] branch has no
    [return]. *)
Definition _get_variables_from_cache (self : Envbee) : M pyval :=
  try_except
    (emit CacheItems ;;;
     values <- with_cache (fun reference =>
                 (store_entries (store_keys reference) reference, reference)) ;;
     values <- lift values ;;
     ret (PList values))
    (fun _ => ret PNone).

(** [get_variable(variable_name)] *)
Definition get_variable (self : Envbee) (env : Env) (variable_name : string)
  : M pyval :=
  let url_path := "/variables-values/" +++ variable_name in
  let hmac_header := _generate_hmac_header self (now_ms env) url_path in
  let final_url := base_url self +++ url_path in
  try_except
    (value <- _send_request self env final_url hmac_header 2 ;;
     v <- lift (py_get value "value" PNone) ;;
     _cache_variable self (PStr variable_name) v ;;;
     lift (py_get value "value" PNone))
    (fun _ => _get_variable_from_cache self (PStr variable_name)).

Section GetVariables.
Variable netloc_ok : string -> bool.

(** [get_variables(offset=None, limit=None)] *)
Definition get_variables (self : Envbee) (env : Env) (offset limit : option Z)
  : M pyval :=
  let url_path := "/variables" in
  let params := [] in
  let params :=
    match offset with
    | Some o => if truthy o then dict_set "offset" (QInt o) params else params
    | None => params
    end in
  let params :=
    match limit with
    | Some l => if truthy l then dict_set "limit" (QInt l) params else params
    | None => params
    end in
  url_path <- lift (add_querystring netloc_ok url_path params) ;;
  let hmac_header := _generate_hmac_header self (now_ms env) url_path in
  let final_url := base_url self +++ url_path in
  try_except
    (body <- _send_request self env final_url hmac_header 2 ;;
     data <- lift (py_get body "data" (PList [])) ;;
     items <- lift (py_iter data) ;;
     for_each items
       (fun v =>
          name <- lift (py_getitem v "name") ;;
          value <- lift (py_getitem v "value") ;;
          _cache_variable self name value) ;;;
     ret data)
    (fun _ => _get_variables_from_cache self).

End GetVariables.

(** ** Vocabulary of the properties *)

(** The events a computation adds to the trace. *)
Definition events_of {A} (m : M A) (w : World) : list event :=
  skipn (List.length (trace w)) (trace (snd (m w))).

Definition is_cache_write (e : event) : bool :=
  match e with CacheSet _ _ => true | _ => false end.

Definition is_cache_read (e : event) : bool :=
  match e with CacheGet _ | CacheItems => true | _ => false end.

Definition cache_writes (ev : list event) : list event := filter is_cache_write ev.
Definition cache_reads (ev : list event) : list event := filter is_cache_read ev.

(** the URLs requested, in order *)
Definition requested_urls (ev : list event) : list string :=
  flat_map (fun e => match e with HttpGet url _ _ => [url] | _ => [] end) ev.

(** The remote attempt fails: the transport raises, the status is not
    200, or the body is not JSON. *)
Definition remote_failed (o : http_outcome) : bool :=
  match o with
  | Failed _ => true
  | Responded r =>
      negb (status_code r =? 200)%Z
      || match json r with Some _ => false | None => true end
  end.

(** The body the remote attempt delivers when it does not fail. *)
Definition remote_body (o : http_outcome) : option pyval :=
  match o with
  | Responded r => if (status_code r =? 200)%Z then json r else None
  | Failed _ => None
  end.

(** The query string of a URL as written: what stands between the first
    question mark and the fragment. *)
Definition raw_query (url : string) : string :=
  let before_fragment :=
    match str_cut "#" url with Some (u, _) => u | None => url end in
  match str_cut "?" before_fragment with
  | Some (_, q) => q
  | None => EmptyString
  end.

(** Its fields, the pieces between ampersands. *)
Definition url_fields (url : string) : list string :=
  let q := raw_query url in
  if nonempty q then str_split "&" q else [].

(** The key of a field: what stands before its first equals sign. *)
Definition field_key (field : string) : string :=
  match str_cut "=" field with
  | Some (k, _) => k
  | None => field
  end.

(** The request path of [get_variables]: [offset], then [limit], each
    when it is provided and is not zero. *)
Definition variables_path (offset limit : option Z) : string :=
  let fields :=
    match offset with
    | Some o => if truthy o then ["offset=" +++ str_of_int o] else []
    | None => []
    end
    ++ match limit with
       | Some l => if truthy l then ["limit=" +++ str_of_int l] else []
       | None => []
       end in
  match fields with
  | [] => "/variables"
  | _ => "/variables?" +++ str_join "&" fields
  end.

(** What a call reads when it falls back on one cached name, and on the
    whole cache: [None] when the access fails, and for the whole cache
    also when a key that is read back finds no row. *)
Definition cached_or_none (k : pyval) (w : World) : pyval :=
  match faults w with
  | true :: _ => PNone
  | _ => match store_get k (cache w) with Some v => v | None => PNone end
  end.

Definition cached_entries (w : World) : pyval :=
  match faults w with
  | true :: _ => PNone
  | _ =>
      match store_entries (store_keys (cache w)) (cache w) with
      | Ret entries => PList entries
      | Raise _ => PNone
      end
  end.

(** The requests the two operations send. *)
Definition variable_request (self : Envbee) (env : Env) (name : string) : event :=
  HttpGet (base_url self +++ "/variables-values/" +++ name)
    [("Authorization",
      _generate_hmac_header self (now_ms env) ("/variables-values/" +++ name));
     ("x-api-key", api_key self)] 2.

Definition variables_request (self : Envbee) (env : Env) (offset limit : option Z)
  : event :=
  HttpGet (base_url self +++ variables_path offset limit)
    [("Authorization",
      _generate_hmac_header self (now_ms env) (variables_path offset limit));
     ("x-api-key", api_key self)] 2.

(** The value a successful fetch of one variable delivers: the body is a
    JSON object, and a missing [value] field reads as [None]. *)
Definition fetched_value (o : http_outcome) : option pyval :=
  match remote_body o with
  | Some (PDict d) =>
      Some (match dict_get "value" d with Some x => x | None => PNone end)
  | _ => None
  end.

(** The [data] of a list response and the items a loop over it visits. *)
Definition fetched_items (o : http_outcome) : option (pyval * list pyval) :=
  match remote_body o with
  | Some body =>
      match py_get body "data" (PList []) with
      | Ret data =>
          match py_iter data with
          | Ret items => Some (data, items)
          | Raise _ => None
          end
      | Raise _ => None
      end
  | None => None
  end.

(** The name and value of an item that has both. *)
Definition entry_fields (v : pyval) : option (pyval * pyval) :=
  match py_getitem v "name", py_getitem v "value" with
  | Ret n, Ret x => Some (n, x)
  | _, _ => None
  end.

Definition well_formed_entries (items : list pyval) : bool :=
  forallb (fun v => match entry_fields v with Some _ => true | None => false end) items.

(** The entries before the first item that lacks a field. *)
Fixpoint leading_entries (items : list pyval) : list (pyval * pyval) :=
  match items with
  | [] => []
  | v :: rest =>
      match entry_fields v with
      | Some e => e :: leading_entries rest
      | None => []
      end
  end.

(** The world after caching [entries] one by one. *)
Fixpoint write_all (self : Envbee) (entries : list (pyval * pyval)) (w : World)
  : World :=
  match entries with
  | [] => w
  | (k, v) :: rest => write_all self rest (snd (_cache_variable self k v w))
  end.

(** The entries a list response delivers when every item has a name and
    a value. *)
Definition fetched_entries (o : http_outcome) : option (list (pyval * pyval)) :=
  match fetched_items o with
  | Some (_, items) =>
      if well_formed_entries items then Some (leading_entries items) else None
  | None => None
  end.

(** the body of the loop of [get_variables] *)
Definition store_item (self : Envbee) (v : pyval) : M unit :=
  name <- lift (py_getitem v "name") ;;
  value <- lift (py_getitem v "value") ;;
  _cache_variable self name value.

Definition write_event (e : pyval * pyval) : event := CacheSet (fst e) (snd e).


(** [c] does not occur in [s] *)
Definition lacks (c : ascii) (s : string) : Prop := str_contains c s = false.

(** neither a question mark nor a hash sign occurs in [s] *)
Definition unmarked (s : string) : Prop := lacks "?" s /\ lacks "#" s.

(** the characters [quote_plus] can emit *)
Definition query_safe (c : ascii) : bool :=
  always_safe c || Ascii.eqb c "+" || Ascii.eqb c "%".

(** a field as [urlencode] writes it for the name [k] and the value [v] *)
Definition field_of (k v : string) : string := quote_plus k +++ "=" +++ quote_plus v.

(** A JSON string literal for plain text. *)
Definition quoted (s : string) : string := String "034" (s +++ String "034" EmptyString).

(** ** Sample clients, responses and worlds *)

Definition sample_client : Envbee :=
  Envbee_init "key-1" (encode_utf8 "s3cret") None.

Definition empty_world : World := mkWorld [] [] [].

(** a cache that holds one variable, and whose next access fails *)
Definition failing_cache_world : World :=
  mkWorld [(PStr "DB_HOST", PStr "db.internal")] [true] [].

(** the body [{"value": "x"}] *)
Definition value_x_response : Response :=
  mkResponse 200 ("{" +++ quoted "value" +++ ": " +++ quoted "x" +++ "}")
    (Some (PDict [("value", PStr "x")])).

(** the body [{"name": "DB_HOST"}], an object without a value field *)
Definition no_value_response : Response :=
  mkResponse 200 ("{" +++ quoted "name" +++ ": " +++ quoted "DB_HOST" +++ "}")
    (Some (PDict [("name", PStr "DB_HOST")])).

(** a page served with status 200 that is not JSON *)
Definition html_response : Response :=
  mkResponse 200 "<html>maintenance</html>" None.

(** the body [{"data": [{"name": "A", "value": "1"}, {"name": "B"}]}]: the
    second entry has no value *)
Definition ragged_list_response : Response :=
  mkResponse 200
    ("{" +++ quoted "data" +++ ": [{" +++ quoted "name" +++ ": " +++ quoted "A"
     +++ ", " +++ quoted "value" +++ ": " +++ quoted "1" +++ "}, {"
     +++ quoted "name" +++ ": " +++ quoted "B" +++ "}]}")
    (Some (PDict [("data",
                   PList [PDict [("name", PStr "A"); ("value", PStr "1")];
                          PDict [("name", PStr "B")]])])).

(** ** Further vocabulary *)

Definition is_hex_lower (c : ascii) : bool := is_digit c || in_range 97 102 c.

Definition is_digit_or_minus (c : ascii) : bool := is_digit c || Ascii.eqb c "-".



(** A value the cache gives back as it was written: it is not a NaN,
    and no text long enough to be kept in a file. *)
Definition kept_as_written (v : pyval) : bool :=
  match v with
  | PFloat x => negb (float_is_nan x)
  | PStr s => (str_len s <? min_file_size)%Z
  | _ => true
  end.

(** The value of the last entry of [entries] whose name finds the rows
    of [k]. *)
Fixpoint last_value (k : pyval) (entries : list (pyval * pyval)) : option pyval :=
  match entries with
  | [] => None
  | e :: rest =>
      match last_value k rest with
      | Some v => Some v
      | None => if key_match k (fst e) then Some (snd e) else None
      end
  end.

(** What SQLite's comparison sees of a key: of a number its value, of an
    infinity its sign, and nothing of a NaN. *)
Inductive key_class :=
| TextKey (s : string)
| NumberKey (scaled : Z)
| InfinityKey (negative : bool)
| PickleKey (v : pyval).

Definition class_of (k : pyval) : option key_class :=
  match k with
  | PStr s => Some (TextKey s)
  | PInt n =>
      if is_int64 n then Some (NumberKey (n * 2 ^ 1074)%Z) else Some (PickleKey k)
  | PFloat x =>
      if float_is_nan x then None
      else if float_is_inf x then Some (InfinityKey (float_negative x))
      else Some (NumberKey (float_scaled x))
  | _ => Some (PickleKey k)
  end.

(** Every key of the table is read back as it was written: none is a
    NaN. *)
Definition readable (c : list (pyval * pyval)) : bool :=
  forallb (fun row => key_match (fst row) (fst row)) c.

(** No key of the table finds an older row than its own, as the unique
    index of the table has it. *)
Fixpoint distinct_rows (c : list (pyval * pyval)) : bool :=
  match c with
  | [] => true
  | (k, _) :: rest =>
      forallb (fun row => negb (key_match (fst row) k)) rest && distinct_rows rest
  end.

(** a row as an entry of the list that reading the whole cache gives *)
Definition read_back (row : pyval * pyval) : pyval :=
  cache_entry (fst row, value_read (snd row)).

(** The store after setting [entries] one by one. *)
Definition store_all (entries : list (pyval * pyval)) (c : list (pyval * pyval))
  : list (pyval * pyval) :=
  fold_left (fun acc e => store_set (fst e) (snd e) acc) entries c.

(** a cache entry whose name is a string *)
Definition named (nv : string * pyval) : pyval * pyval := (PStr (fst nv), snd nv).

(** [urllib.parse.unquote_plus(s)], the decoding [parse_qsl] applies to
    names and values *)
Definition unquote_plus (s : string) : string := unquote (str_replace "+" " " s).

(** [s] is well-formed UTF-8, as the encoding of every [str] is: decoding
    it with [errors="replace"] replaces nothing. *)
Definition well_formed_utf8 (s : string) : Prop :=
  UTF8.scrub (map byte_val (list_byte_of_string s)) = map byte_val (list_byte_of_string s).


(** a name and a non-empty value, both well-formed text *)
Definition readable_pair (kv : string * string) : Prop :=
  well_formed_utf8 (fst kv) /\ well_formed_utf8 (snd kv) /\ nonempty (snd kv) = true.

(** a dictionary of string values *)
Definition str_items (pairs : list (string * string)) : list (string * qvalue) :=
  map (fun kv => (fst kv, QStr (snd kv))) pairs.

(** the body [{"data": [{"name": "A", "value": "1"}, {"name": "B", "value": "2"}]}] *)
Definition list_response : Response :=
  mkResponse 200
    ("{" +++ quoted "data" +++ ": [{" +++ quoted "name" +++ ": " +++ quoted "A"
     +++ ", " +++ quoted "value" +++ ": " +++ quoted "1" +++ "}, {"
     +++ quoted "name" +++ ": " +++ quoted "B" +++ ", " +++ quoted "value" +++ ": "
     +++ quoted "2" +++ "}]}")
    (Some (PDict [("data",
                   PList [cache_entry (PStr "A", PStr "1");
                          cache_entry (PStr "B", PStr "2")])])).

(** the body [[1, 2]], JSON that is not an object *)
Definition json_list_response : Response :=
  mkResponse 200 "[1, 2]" (Some (PList [PInt 1; PInt 2])).

(** the body [{"data": null}] *)
Definition null_data_response : Response :=
  mkResponse 200 ("{" +++ quoted "data" +++ ": null}")
    (Some (PDict [("data", PNone)])).

(** the body [{}] *)
Definition no_data_response : Response :=
  mkResponse 200 "{}" (Some (PDict [])).

(** the bits of the NaN that [float("nan")] and the JSON literal [NaN]
    make *)
Definition nan_bits : Z := 0x7ff8000000000000.

(** the body [{"data": [{"name": NaN, "value": "1"}]}] *)
Definition nan_name_response : Response :=
  mkResponse 200
    ("{" +++ quoted "data" +++ ": [{" +++ quoted "name" +++ ": NaN, "
     +++ quoted "value" +++ ": " +++ quoted "1" +++ "}]}")
    (Some (PDict [("data", PList [cache_entry (PFloat nan_bits, PStr "1")])])).

(** a cache that holds one variable *)
Definition one_variable_world : World :=
  mkWorld [(PStr "DB_HOST", PStr "db.internal")] [] [].

(** * Properties *)

(** ** The hash functions agree with the published test vectors *)

Example md5_empty_object :
  md5_hexdigest (encode_utf8 "{}") = "99914b932bd37a50b983c5e7c90ae93b".
Proof. vm_compute. reflexivity. Qed.

Example md5_two_blocks :
  md5_hexdigest (repeat "a"%byte 70) = "0f5c6c4e740bfcc08c3c26ccb2673d46".
Proof. vm_compute. reflexivity. Qed.

Example sha256_abc :
  sha256_hexdigest (encode_utf8 "abc")
  = "ba7816bf8f01cfea414140de5dae2223b00361a396177a9cb410ff61f20015ad".
Proof. vm_compute. reflexivity. Qed.

Example sha256_two_blocks :
  sha256_hexdigest (repeat "a"%byte 119)
  = "31eba51c313a5c08226adf18d4a359cfdfd8d2e816b13f4af952f7ea6584dcfb".
Proof. vm_compute. reflexivity. Qed.

Example hmac_long_key :
  HMAC.hexdigest (HMAC.update (HMAC.new (repeat "k"%byte 70)) (encode_utf8 "hello"))
  = "73473f937d4c181ed6aa87ce97d6db7dc732e19dd43e60c8ab7ee3aed2d9f4b0".
Proof. vm_compute. reflexivity. Qed.

(** ** Signing *)

Example header_example :
  _generate_hmac_header (Envbee_init "key" (encode_utf8 "secret") None)
    1700000000000 "/variables-values/DB_HOST"
  = "HMAC 1700000000000:d1fdc37d67f26c34b2fa60d443b7621375ba3ed2b86de4c24c24f1ad440fa8b7".
Proof. vm_compute. reflexivity. Qed.

Lemma update_fed (h : HMAC.t) (d : bytes) :
  HMAC.fed (HMAC.update h d) = HMAC.fed h ++ d.
Proof. reflexivity. Qed.

Lemma update_key (h : HMAC.t) (d : bytes) :
  HMAC.key (HMAC.update h d) = HMAC.key h.
Proof. reflexivity. Qed.

(** C2.  For every path and every clock reading, the header is
    [HMAC t:signature], where [t] is the reading in decimal and
    [signature] is the hexadecimal HMAC-SHA256, keyed by the API secret,
    of the bytes of [t], of [GET], of the path and of the hexadecimal MD5
    digest of [{}], concatenated in that order with nothing between. *)
Theorem generate_hmac_header_format (self : Envbee) (now : Z) (url_path : string) :
  let t := str_of_int now in
  let bodyDigest := md5_hexdigest (encode_utf8 "{}") in
  let signature :=
    hexlify (HMAC.hmac_sha256 (map byte_val (api_secret self))
               (map byte_val (encode_utf8 t ++ encode_utf8 "GET"
                              ++ encode_utf8 url_path ++ encode_utf8 bodyDigest))) in
  _generate_hmac_header self now url_path = "HMAC " +++ t +++ ":" +++ signature.
Proof.
  intros t bodyDigest signature.
  unfold _generate_hmac_header, HMAC.hexdigest.
  rewrite !update_key, !update_fed.
  unfold HMAC.new; cbn [HMAC.key HMAC.fed app].
  unfold signature, t, bodyDigest, json_dumps_empty_dict.
  rewrite <- !app_assoc. reflexivity.
Qed.

(** C8.  Two clients that hold the same API secret compute the same
    header for the same path at the same clock reading, whatever their
    API keys and base URLs are: nothing else enters the computation. *)
Theorem signature_deterministic (c1 c2 : Envbee) (now : Z) (url_path : string) :
  api_secret c1 = api_secret c2 ->
  _generate_hmac_header c1 now url_path = _generate_hmac_header c2 now url_path.
Proof.
  intros Hs. unfold _generate_hmac_header. rewrite Hs. reflexivity.
Qed.

Lemma signature_deterministic_witness :
  _generate_hmac_header
    (mkEnvbee "https://a.example" "key-1" (encode_utf8 "s3cret"))
    1700000000000 "/variables"
  = _generate_hmac_header
      (mkEnvbee "https://b.example" "key-2" (encode_utf8 "s3cret"))
      1700000000000 "/variables".
Proof.
  apply (signature_deterministic
           (mkEnvbee "https://a.example" "key-1" (encode_utf8 "s3cret"))
           (mkEnvbee "https://b.example" "key-2" (encode_utf8 "s3cret"))).
  reflexivity.
Defined.

(** ** The transport call *)

Ltac run_monad :=
  cbv [bind ret raise lift try_except emit with_cache for_each] in *;
  cbn [fst snd cache faults trace tl] in *.

(** What [_send_request] does, by what the round trip comes to. *)
Lemma send_request_run self env url hdr timeout w :
  _send_request self env url hdr timeout w =
  (match remote env with
   | Responded r =>
       if (status_code r =? 200)%Z then
         match json r with
         | Some body => Ret body
         | None => Raise JSONDecodeError
         end
       else Raise (RequestError (status_code r) ("Failed request: " +++ text r))
   | Failed Timeout =>
       Raise (RequestTimeoutError
                ("Request to " +++ url +++ " timed out after "
                 +++ str_of_int timeout +++ " seconds"))
   | Failed e => Raise (RequestsException e)
   end,
   mkWorld (cache w) (faults w)
     (trace w ++ [HttpGet url [("Authorization", hdr); ("x-api-key", api_key self)] timeout])).
Proof.
  unfold _send_request, requests_get. run_monad.
  destruct (remote env) as [r | e].
  - destruct (status_code r =? 200)%Z; [destruct (json r) |]; reflexivity.
  - destruct e; reflexivity.
Qed.

(** C4, as the code has it.  [_send_request] raises [RequestError] with
    the status code exactly when a response with a status other than 200
    arrives, raises [RequestTimeoutError] exactly when the transport
    times out, and returns a body exactly when the response has status
    200 and that body is what its text parses to as JSON. *)
Theorem send_request_outcomes self env url hdr timeout w :
  let r := fst (_send_request self env url hdr timeout w) in
  (forall s, (exists m, r = Raise (RequestError s m))
             <-> (exists resp, remote env = Responded resp
                               /\ status_code resp = s /\ s <> 200%Z))
  /\ ((exists m, r = Raise (RequestTimeoutError m)) <-> remote env = Failed Timeout)
  /\ (forall body, r = Ret body
                   <-> (exists resp, remote env = Responded resp
                                     /\ status_code resp = 200%Z
                                     /\ json resp = Some body)).
Proof.
  intros r. subst r. rewrite send_request_run. cbn [fst].
  destruct (remote env) as [resp | e].
  - destruct (Z.eqb_spec (status_code resp) 200) as [E | E].
    + destruct (json resp) as [b |] eqn:J; repeat split.
      * intros [m H]; discriminate.
      * intros (r' & H & <- & Hs). injection H as <-. congruence.
      * intros [m H]; discriminate.
      * discriminate.
      * intros H. injection H as <-. eauto.
      * intros (r' & H & _ & Hj). injection H as <-. congruence.
      * intros [m H]; discriminate.
      * intros (r' & H & <- & Hs). injection H as <-. congruence.
      * intros [m H]; discriminate.
      * discriminate.
      * discriminate.
      * intros (r' & H & _ & Hj). injection H as <-. congruence.
    + repeat split.
      * intros [m H]. injection H as <- _. eauto.
      * intros (r' & H & <- & Hs). injection H as <-. eauto.
      * intros [m H]; discriminate.
      * discriminate.
      * discriminate.
      * intros (r' & H & Hs & _). injection H as <-. congruence.
  - destruct e; repeat split;
      try (intros [m H]; discriminate); try discriminate;
      try (intros (r' & H & _); discriminate); eauto.
Qed.

(** C4 as stated fails: a response with status 200 whose body is not JSON
    makes [_send_request] raise, so status 200 does not suffice for a
    body to be returned. *)
Lemma send_request_stated_counterexample :
  ~ (forall self env url hdr timeout w,
       (exists body, fst (_send_request self env url hdr timeout w) = Ret body)
       <-> (exists resp, remote env = Responded resp /\ status_code resp = 200%Z)).
Proof.
  intros H.
  destruct (H sample_client (mkEnv 0 (Responded html_response))
              "https://api.envbee.dev/variables" "HMAC 0:00" 2%Z empty_world)
    as [_ H2].
  destruct H2 as [body Hb].
  - eexists. split; reflexivity.
  - rewrite send_request_run in Hb. discriminate.
Qed.

(** ** The cache *)

Lemma cache_variable_run self k v w :
  _cache_variable self k v w =
  (Ret tt,
   mkWorld (match faults w with true :: _ => cache w | _ => store_set k v (cache w) end)
           (tl (faults w)) (trace w ++ [CacheSet k v])).
Proof.
  unfold _cache_variable. run_monad.
  destruct (faults w) as [| [] later]; reflexivity.
Qed.

Lemma get_variable_from_cache_run self k w :
  _get_variable_from_cache self k w =
  (Ret (cached_or_none k w),
   mkWorld (cache w) (tl (faults w)) (trace w ++ [CacheGet k])).
Proof.
  unfold _get_variable_from_cache, cached_or_none. run_monad.
  destruct (faults w) as [| [] later]; reflexivity.
Qed.

Lemma get_variables_from_cache_run self w :
  _get_variables_from_cache self w =
  (Ret (cached_entries w),
   mkWorld (cache w) (tl (faults w)) (trace w ++ [CacheItems])).
Proof.
  unfold _get_variables_from_cache, cached_entries. run_monad.
  destruct (faults w) as [| [] later]; try reflexivity;
    destruct (store_entries (store_keys (cache w)) (cache w)); reflexivity.
Qed.

Lemma pyval_eqb_refl : forall a, pyval_eqb a a = true.
Proof.
  fix IH 1. intros a. destruct a; cbn [pyval_eqb]; try reflexivity.
  - apply Bool.eqb_reflx.
  - apply Z.eqb_refl.
  - apply Z.eqb_refl.
  - apply String.eqb_refl.
  - induction l as [| u us IHl]; [reflexivity |].
    rewrite IH, IHl. reflexivity.
  - induction d as [| [k u] us IHl]; [reflexivity |].
    rewrite String.eqb_refl, IH, IHl. reflexivity.
Qed.

(** A key that is a [str] finds the rows made with that very [str]. *)
Lemma key_match_str name k :
  key_match (PStr name) k = match k with PStr s => String.eqb s name | _ => false end.
Proof.
  destruct k as [| b | n | x | s | l | d]; cbn [key_match disk_put sql_eq];
    try reflexivity.
  - destruct (is_int64 n); reflexivity.
  - destruct (float_is_nan x); reflexivity.
  - apply andb_true_r.
Qed.

Lemma key_match_str_refl name : key_match (PStr name) (PStr name) = true.
Proof. rewrite key_match_str. apply String.eqb_refl. Qed.

Lemma key_match_str_true name k : key_match (PStr name) k = true -> k = PStr name.
Proof.
  rewrite key_match_str. destruct k; try discriminate.
  intros H. apply String.eqb_eq in H. congruence.
Qed.

(** After [set(k, v)], [get(k)] gives [v] as the table gives it back,
    for a key that SQLite finds equal to itself. *)
Lemma store_get_set (k v : pyval) (c : list (pyval * pyval)) :
  key_match k k = true ->
  store_get k (store_set k v c) = Some (value_read v).
Proof.
  intros Hk. induction c as [| [k' v'] rest IH]; cbn [store_set store_get].
  - rewrite Hk. reflexivity.
  - destruct (key_match k k') eqn:E; cbn [store_get]; rewrite E; auto.
Qed.

(** A value that is neither a NaN nor a long text comes back as it was
    written. *)
Lemma value_read_kept v : kept_as_written v = true -> value_read v = v.
Proof.
  destruct v as [| b | n | x | s | l | d]; cbn [kept_as_written value_read];
    try reflexivity.
  - intros H. apply negb_true_iff in H. rewrite H. reflexivity.
  - intros ->. reflexivity.
Qed.

(** The row of a [str] key holds the value last written for it. *)
Lemma store_set_row name v c : In (PStr name, v) (store_set (PStr name) v c).
Proof.
  induction c as [| [k' v'] rest IH]; cbn [store_set]; [left; reflexivity |].
  destruct (key_match (PStr name) k') eqn:E.
  - apply key_match_str_true in E. subst k'. left. reflexivity.
  - right. exact IH.
Qed.

Lemma events_of_app {A} (m : M A) (w : World) (ev : list event) :
  trace (snd (m w)) = trace w ++ ev -> events_of m w = ev.
Proof.
  intros H. unfold events_of. rewrite H, skipn_app, skipn_all, Nat.sub_diag.
  reflexivity.
Qed.

Lemma remote_failed_no_body o : remote_failed o = true -> remote_body o = None.
Proof.
  destruct o as [r | e]; cbn; [| reflexivity].
  destruct (status_code r =? 200)%Z; cbn; [| reflexivity].
  destruct (json r); [discriminate | reflexivity].
Qed.

Lemma remote_body_not_failed o b : remote_body o = Some b -> remote_failed o = false.
Proof.
  destruct o as [r | e]; cbn; [| discriminate].
  destruct (status_code r =? 200)%Z; cbn; [| discriminate].
  intros ->. reflexivity.
Qed.

(** ** [get_variable] *)

Lemma get_variable_run self env name w :
  get_variable self env name w =
  match remote_body (remote env) with
  | Some (PDict d) =>
      let v := match dict_get "value" d with Some x => x | None => PNone end in
      (Ret v,
       mkWorld (match faults w with
                | true :: _ => cache w
                | _ => store_set (PStr name) v (cache w)
                end)
               (tl (faults w))
               (trace w ++ [variable_request self env name; CacheSet (PStr name) v]))
  | _ =>
      (Ret (cached_or_none (PStr name) w),
       mkWorld (cache w) (tl (faults w))
               (trace w ++ [variable_request self env name; CacheGet (PStr name)]))
  end.
Proof.
  unfold get_variable, variable_request.
  cbv [try_except bind lift].
  rewrite send_request_run.
  set (hdr := _generate_hmac_header _ _ _).
  unfold remote_body.
  destruct (remote env) as [r | e].
  - destruct (status_code r =? 200)%Z.
    + destruct (json r) as [body |].
      * destruct body; cbn [py_get];
          try (rewrite get_variable_from_cache_run; cbn [cache faults trace];
               rewrite <- app_assoc; reflexivity).
        destruct (dict_get "value" d) as [x |];
          rewrite cache_variable_run; cbn [cache faults trace];
          rewrite <- app_assoc; reflexivity.
      * rewrite get_variable_from_cache_run; cbn [cache faults trace].
        rewrite <- app_assoc; reflexivity.
    + rewrite get_variable_from_cache_run; cbn [cache faults trace].
      rewrite <- app_assoc; reflexivity.
  - destruct e; rewrite get_variable_from_cache_run; cbn [cache faults trace];
      rewrite <- app_assoc; reflexivity.
Qed.

Lemma get_variable_events self env name w :
  events_of (get_variable self env name) w =
  variable_request self env name ::
  match fetched_value (remote env) with
  | Some v => [CacheSet (PStr name) v]
  | None => [CacheGet (PStr name)]
  end.
Proof.
  apply events_of_app. rewrite get_variable_run. unfold fetched_value.
  destruct (remote_body (remote env)) as [[] |]; reflexivity.
Qed.

(** C1.  When the remote attempt fails (the transport raises, times out
    or not, the status is not 200, or the body is not JSON),
    [get_variable] raises nothing: it returns what the cache holds for
    the name, and [None] when the cache holds nothing for it or cannot be
    read. *)
Theorem get_variable_falls_back_to_cache self env name w :
  remote_failed (remote env) = true ->
  fst (get_variable self env name w) =
    Ret (match faults w with
         | true :: _ => PNone
         | _ => match store_get (PStr name) (cache w) with
                | Some v => v
                | None => PNone
                end
         end).
Proof.
  intros Hf. rewrite get_variable_run, (remote_failed_no_body _ Hf). reflexivity.
Qed.

Lemma get_variable_falls_back_to_cache_witness :
  fst (get_variable sample_client (mkEnv 1700000000000 (Failed Timeout)) "DB_HOST"
         empty_world) = Ret PNone.
Proof.
  apply (get_variable_falls_back_to_cache sample_client
           (mkEnv 1700000000000 (Failed Timeout)) "DB_HOST" empty_world).
  reflexivity.
Defined.

(** C6.  When the remote answers 200 with a JSON object whose [value]
    field is [x], [get_variable] returns [x] and writes the cache exactly
    once, the pair of the name and [x].  Unless that cache access fails,
    reading the name from the cache then gives what the table gives
    back of [x]: [x] itself, if it is neither a NaN nor a text long
    enough to be kept in a file. *)
Theorem get_variable_success self env name w resp d x :
  remote env = Responded resp ->
  status_code resp = 200%Z ->
  json resp = Some (PDict d) ->
  dict_get "value" d = Some x ->
  fst (get_variable self env name w) = Ret x
  /\ cache_writes (events_of (get_variable self env name) w)
     = [CacheSet (PStr name) x]
  /\ (hd false (faults w) = false ->
      store_get (PStr name) (cache (snd (get_variable self env name w)))
      = Some (value_read x)
      /\ (kept_as_written x = true ->
          store_get (PStr name) (cache (snd (get_variable self env name w)))
          = Some x)).
Proof.
  intros Hr Hs Hj Hv.
  assert (Hb : remote_body (remote env) = Some (PDict d)).
  { unfold remote_body. rewrite Hr, Hs, Hj. reflexivity. }
  rewrite get_variable_events. unfold fetched_value.
  rewrite get_variable_run, Hb, Hv. cbn [fst snd cache].
  repeat split.
  - destruct (faults w) as [| [] ?]; try discriminate;
      apply store_get_set, key_match_str_refl.
  - intros Hx. destruct (faults w) as [| [] ?]; try discriminate;
      rewrite store_get_set by apply key_match_str_refl;
      rewrite (value_read_kept x Hx); reflexivity.
Qed.

Lemma get_variable_success_witness :
  fst (get_variable sample_client (mkEnv 1700000000000 (Responded value_x_response))
         "DB_HOST" empty_world) = Ret (PStr "x")
  /\ cache_writes
       (events_of (get_variable sample_client
                     (mkEnv 1700000000000 (Responded value_x_response)) "DB_HOST")
          empty_world)
     = [CacheSet (PStr "DB_HOST") (PStr "x")]
  /\ (hd false (faults empty_world) = false ->
      store_get (PStr "DB_HOST")
        (cache (snd (get_variable sample_client
                       (mkEnv 1700000000000 (Responded value_x_response))
                       "DB_HOST" empty_world)))
      = Some (value_read (PStr "x"))
      /\ (kept_as_written (PStr "x") = true ->
          store_get (PStr "DB_HOST")
            (cache (snd (get_variable sample_client
                           (mkEnv 1700000000000 (Responded value_x_response))
                           "DB_HOST" empty_world)))
          = Some (PStr "x"))).
Proof.
  apply (get_variable_success sample_client
           (mkEnv 1700000000000 (Responded value_x_response)) "DB_HOST" empty_world
           value_x_response [("value", PStr "x")] (PStr "x"));
    reflexivity.
Defined.

(** C10.  When the remote answers 200 with a JSON object that has no
    [value] field, [get_variable] does not fall back on the cache: it
    sends the request, writes the pair of the name and [None] to the
    cache, reads nothing from it, and returns [None].  Unless the cache
    access fails, the cache then has a row for the name, and it holds
    [None]. *)
Theorem get_variable_without_value_field self env name w resp d :
  remote env = Responded resp ->
  status_code resp = 200%Z ->
  json resp = Some (PDict d) ->
  dict_get "value" d = None ->
  fst (get_variable self env name w) = Ret PNone
  /\ events_of (get_variable self env name) w
     = [variable_request self env name; CacheSet (PStr name) PNone]
  /\ cache_reads (events_of (get_variable self env name) w) = []
  /\ (hd false (faults w) = false ->
      In (PStr name, PNone) (cache (snd (get_variable self env name w)))
      /\ store_get (PStr name) (cache (snd (get_variable self env name w)))
         = Some PNone).
Proof.
  intros Hr Hs Hj Hv.
  assert (Hb : remote_body (remote env) = Some (PDict d)).
  { unfold remote_body. rewrite Hr, Hs, Hj. reflexivity. }
  rewrite get_variable_events. unfold fetched_value.
  rewrite get_variable_run, Hb, Hv. cbn [fst snd cache]. repeat split.
  - destruct (faults w) as [| [] ?]; try discriminate; apply store_set_row.
  - destruct (faults w) as [| [] ?]; try discriminate;
      apply (store_get_set (PStr name) PNone), key_match_str_refl.
Qed.

Lemma get_variable_without_value_field_witness :
  fst (get_variable sample_client (mkEnv 1700000000000 (Responded no_value_response))
         "DB_HOST" empty_world) = Ret PNone
  /\ events_of (get_variable sample_client
                  (mkEnv 1700000000000 (Responded no_value_response)) "DB_HOST")
       empty_world
     = [variable_request sample_client
          (mkEnv 1700000000000 (Responded no_value_response)) "DB_HOST";
        CacheSet (PStr "DB_HOST") PNone]
  /\ cache_reads
       (events_of (get_variable sample_client
                     (mkEnv 1700000000000 (Responded no_value_response)) "DB_HOST")
          empty_world) = []
  /\ (hd false (faults empty_world) = false ->
      In (PStr "DB_HOST", PNone)
        (cache (snd (get_variable sample_client
                       (mkEnv 1700000000000 (Responded no_value_response))
                       "DB_HOST" empty_world)))
      /\ store_get (PStr "DB_HOST")
           (cache (snd (get_variable sample_client
                          (mkEnv 1700000000000 (Responded no_value_response))
                          "DB_HOST" empty_world)))
         = Some PNone).
Proof.
  apply (get_variable_without_value_field sample_client
           (mkEnv 1700000000000 (Responded no_value_response)) "DB_HOST" empty_world
           no_value_response [("name", PStr "DB_HOST")]);
    reflexivity.
Defined.

(** ** [get_variables] *)

Lemma quote_plus_uint (d : Decimal.uint) :
  quote_plus (NilEmpty.string_of_uint d) = NilEmpty.string_of_uint d.
Proof.
  induction d; cbn [NilEmpty.string_of_uint quote_plus]; [reflexivity | ..];
    rewrite IHd; reflexivity.
Qed.

(** the decimal text of an integer needs no escaping *)
Lemma quote_plus_str_of_int (n : Z) : quote_plus (str_of_int n) = str_of_int n.
Proof.
  unfold str_of_int, NilZero.string_of_int.
  destruct (Z.to_int n) as [d | d].
  - unfold NilZero.string_of_uint. destruct d; try reflexivity; apply quote_plus_uint.
  - cbn [quote_plus]. unfold NilZero.string_of_uint.
    destruct d; try reflexivity; rewrite quote_plus_uint; reflexivity.
Qed.

Lemma store_item_run self v w :
  store_item self v w =
  match entry_fields v with
  | Some (k, x) => (Ret tt, snd (_cache_variable self k x w))
  | None =>
      (match py_getitem v "name" with
       | Raise e => Raise e
       | Ret _ => match py_getitem v "value" with Raise e => Raise e | Ret _ => Ret tt end
       end, w)
  end.
Proof.
  unfold store_item, entry_fields. cbv [bind lift].
  destruct (py_getitem v "name") as [n | e]; [| reflexivity].
  destruct (py_getitem v "value") as [x | e]; [| reflexivity].
  rewrite cache_variable_run. reflexivity.
Qed.

(** The loop caches the entries up to the first item that lacks a field,
    and raises at that item. *)
Lemma store_loop_run self items : forall w,
  snd (for_each items (store_item self) w) = write_all self (leading_entries items) w
  /\ (if well_formed_entries items
      then fst (for_each items (store_item self) w) = Ret tt
      else exists e, fst (for_each items (store_item self) w) = Raise e).
Proof.
  induction items as [| v rest IH]; intros w.
  - split; reflexivity.
  - cbn [for_each leading_entries well_formed_entries forallb].
    unfold bind. rewrite store_item_run.
    unfold entry_fields.
    destruct (py_getitem v "name") as [n | e].
    + destruct (py_getitem v "value") as [x | e].
      * cbn [andb write_all]. apply IH.
      * cbn [andb fst snd write_all]. split; eauto.
    + cbn [andb fst snd write_all]. split; eauto.
Qed.

Lemma write_all_trace self entries : forall w,
  trace (write_all self entries w) = trace w ++ map write_event entries.
Proof.
  induction entries as [| [k v] rest IH]; intros w; cbn [write_all map].
  - rewrite app_nil_r. reflexivity.
  - rewrite IH, cache_variable_run. cbn [snd trace].
    rewrite <- app_assoc. reflexivity.
Qed.

Lemma cache_reads_writes entries : cache_reads (map write_event entries) = [].
Proof. induction entries as [| e rest IH]; [reflexivity | exact IH]. Qed.


Lemma remote_failed_no_items o : remote_failed o = true -> fetched_items o = None.
Proof.
  intros H. unfold fetched_items. rewrite (remote_failed_no_body _ H). reflexivity.
Qed.

Lemma fetched_items_not_failed o x : fetched_items o = Some x -> remote_failed o = false.
Proof.
  unfold fetched_items. destruct (remote_body o) as [b |] eqn:E; [| discriminate].
  intros _. eapply remote_body_not_failed, E.
Qed.

Section GetVariablesFacts.
Variable netloc_ok : string -> bool.

Lemma urlparse_variables :
  urlparse netloc_ok "/variables" = Ret (mkParseResult "" "" "/variables" "" "" "").
Proof. reflexivity. Qed.

(** The path [get_variables] builds with [add_querystring]. *)
Lemma add_querystring_variables (offset limit : option Z) :
  add_querystring netloc_ok "/variables"
    (let params := [] in
     let params :=
       match offset with
       | Some o => if truthy o then dict_set "offset" (QInt o) params else params
       | None => params
       end in
     match limit with
     | Some l => if truthy l then dict_set "limit" (QInt l) params else params
     | None => params
     end)
  = Ret (variables_path offset limit).
Proof.
  unfold add_querystring. rewrite urlparse_variables.
  cbn [query parse_qs parse_qsl nonempty flat_map fold_left map].
  unfold variables_path.
  destruct offset as [o |], limit as [l |]; try destruct (truthy o); try destruct (truthy l);
    cbn [dict_update dict_set fold_left fst snd String.eqb Ascii.eqb Bool.eqb app];
    unfold urlencode; cbn [flat_map urlencode_item fst snd app quote_plus];
    rewrite ?quote_plus_str_of_int; reflexivity.
Qed.

Lemma get_variables_run self env offset limit w :
  get_variables netloc_ok self env offset limit w =
  let w0 := mkWorld (cache w) (faults w)
              (trace w ++ [variables_request self env offset limit]) in
  match fetched_items (remote env) with
  | Some (data, items) =>
      let w1 := write_all self (leading_entries items) w0 in
      if well_formed_entries items then (Ret data, w1)
      else _get_variables_from_cache self w1
  | None => _get_variables_from_cache self w0
  end.
Proof.
  unfold get_variables.
  unfold bind at 1. unfold lift at 1.
  rewrite add_querystring_variables.
  unfold try_except. unfold bind at 1.
  rewrite send_request_run. fold (variables_request self env offset limit).
  unfold fetched_items, remote_body.
  destruct (remote env) as [r | e].
  2:{ destruct e; reflexivity. }
  destruct (status_code r =? 200)%Z; [| reflexivity].
  destruct (json r) as [body |]; [| reflexivity].
  unfold bind at 1. unfold lift at 1.
  destruct (py_get body "data" (PList [])) as [data | e]; [| reflexivity].
  unfold bind at 1. unfold lift at 1.
  destruct (py_iter data) as [items | e]; [| reflexivity].
  unfold bind at 1.
  change (fun v : pyval => _) with (store_item self).
  match goal with |- context [for_each items (store_item self) ?w0] =>
    destruct (store_loop_run self items w0) as [Hs Hr];
    destruct (for_each items (store_item self) w0) as [r' w'] eqn:E
  end.
  cbn [fst snd] in Hs, Hr. subst w'.
  destruct (well_formed_entries items).
  - subst r'. reflexivity.
  - destruct Hr as [e ->]. reflexivity.
Qed.

Lemma get_variables_events self env offset limit w :
  events_of (get_variables netloc_ok self env offset limit) w =
  variables_request self env offset limit ::
  match fetched_items (remote env) with
  | Some (_, items) =>
      map write_event (leading_entries items)
      ++ (if well_formed_entries items then [] else [CacheItems])
  | None => [CacheItems]
  end.
Proof.
  apply events_of_app. rewrite get_variables_run. cbv zeta.
  destruct (fetched_items (remote env)) as [[data items] |].
  - destruct (well_formed_entries items).
    + cbn [snd]. rewrite write_all_trace. cbn [trace].
      rewrite app_nil_r, <- app_assoc. reflexivity.
    + rewrite get_variables_from_cache_run. cbn [snd trace].
      rewrite write_all_trace. cbn [trace].
      rewrite <- !app_assoc. reflexivity.
  - rewrite get_variables_from_cache_run. cbn [snd trace].
    rewrite <- app_assoc. reflexivity.
Qed.

(** When the remote attempt fails, [get_variables] returns the whole
    cache as a list of entries, and [None] when the cache cannot be
    read. *)
Lemma get_variables_falls_back_to_cache self env offset limit w :
  remote_failed (remote env) = true ->
  fst (get_variables netloc_ok self env offset limit w) = Ret (cached_entries w).
Proof.
  intros H. rewrite get_variables_run, (remote_failed_no_items _ H). cbv zeta.
  rewrite get_variables_from_cache_run. reflexivity.
Qed.



(** C9, as the code has it.  [get_variable] writes the cache only when
    the remote fetch delivered a value (status 200 and a JSON object) and
    reads it only when the fetch delivered none.  [get_variables] writes
    the cache only when the remote attempt did not fail (status 200 and
    a JSON body) and reads it only when the fetch did not deliver a list
    whose items all have a name and a value. *)
Theorem cache_written_after_success_read_after_failure :
  (forall self env name w,
     let ev := events_of (get_variable self env name) w in
     (cache_writes ev <> [] -> fetched_value (remote env) <> None)
     /\ (cache_reads ev <> [] -> fetched_value (remote env) = None))
  /\ (forall self env offset limit w,
        let ev := events_of (get_variables netloc_ok self env offset limit) w in
        (cache_writes ev <> [] -> remote_failed (remote env) = false)
        /\ (cache_reads ev <> [] -> fetched_entries (remote env) = None)).
Proof.
  split.
  - intros self env name w ev. subst ev. rewrite get_variable_events.
    destruct (fetched_value (remote env)) as [v |]; split; cbn; congruence.
  - intros self env offset limit w ev. subst ev. rewrite get_variables_events.
    unfold fetched_entries.
    destruct (fetched_items (remote env)) as [[data items] |] eqn:E.
    + split; [intros _; eapply fetched_items_not_failed, E |].
      destruct (well_formed_entries items); [| reflexivity].
      rewrite app_nil_r. cbn [cache_reads filter is_cache_read].
      fold (cache_reads (map write_event (leading_entries items))).
      rewrite cache_reads_writes. intros Hc. exfalso. apply Hc. reflexivity.
    + split; cbn; congruence.
Qed.

End GetVariablesFacts.


Example get_variables_offset_zero :
  requested_urls
    (events_of (get_variables (fun _ => true) sample_client
                  (mkEnv 0 (Failed ConnectionError)) (Some 0%Z) (Some 5%Z))
       empty_world)
  = ["https://api.envbee.dev/variables?limit=5"].
Proof. vm_compute. reflexivity. Qed.

(** C5: the remote attempt times out and the cache cannot be read.
    [get_variables] then returns [None], where reading an empty cache
    gives the empty list. *)
Theorem get_variables_cache_failure_returns_none :
  fst (get_variables (fun _ => true) sample_client
         (mkEnv 1700000000000 (Failed Timeout)) None None failing_cache_world)
  = Ret PNone
  /\ fst (get_variables (fun _ => true) sample_client
            (mkEnv 1700000000000 (Failed Timeout)) None None empty_world)
     = Ret (PList []).
Proof. split; vm_compute; reflexivity. Qed.

(** C9 as stated fails: [get_variables] caches the first entry of a list
    whose second entry lacks its value, and then reads the cache, both in
    one call. *)
Lemma cache_discipline_counterexample :
  ~ (forall netloc_ok self env offset limit w,
       let ev := events_of (get_variables netloc_ok self env offset limit) w in
       cache_writes ev = [] \/ cache_reads ev = []).
Proof.
  intros H.
  specialize (H (fun _ => true) sample_client
                (mkEnv 1700000000000 (Responded ragged_list_response))
                None None empty_world).
  cbv zeta in H. rewrite get_variables_events in H.
  destruct H as [H | H]; discriminate H.
Qed.

Example get_variable_success_events :
  events_of (get_variable sample_client
               (mkEnv 1700000000000 (Responded value_x_response)) "DB_HOST")
    empty_world
  = [variable_request sample_client
       (mkEnv 1700000000000 (Responded value_x_response)) "DB_HOST";
     CacheSet (PStr "DB_HOST") (PStr "x")].
Proof. apply get_variable_events. Qed.

Example get_variable_timeout_events :
  events_of (get_variable sample_client (mkEnv 1700000000000 (Failed Timeout)) "DB_HOST")
    empty_world
  = [variable_request sample_client (mkEnv 1700000000000 (Failed Timeout)) "DB_HOST";
     CacheGet (PStr "DB_HOST")].
Proof. apply get_variable_events. Qed.

Example ragged_list_events :
  map (fun e => match e with HttpGet _ _ _ => "request" | CacheSet _ _ => "write"
                           | CacheGet _ => "read" | CacheItems => "read all" end)
    (events_of (get_variables (fun _ => true) sample_client
                  (mkEnv 1700000000000 (Responded ragged_list_response)) None None)
       empty_world)
  = ["request"; "write"; "read all"]
  /\ fst (get_variables (fun _ => true) sample_client
            (mkEnv 1700000000000 (Responded ragged_list_response)) None None
            empty_world)
     = Ret (PList [PDict [("name", PStr "A"); ("value", PStr "1")]]).
Proof. split; vm_compute; reflexivity. Qed.

(** ** [add_querystring] *)

(** ** Dictionaries *)

Section DictFacts.
Context {V : Type}.
Implicit Types (d o : list (string * V)) (k : string) (v : V).






Lemma dict_get_None k d : dict_get k d = None <-> ~ In k (map fst d).
Proof.
  induction d as [| [k1 v1] rest IH]; cbn [dict_get map fst In].
  - intuition.
  - destruct (String.eqb_spec k k1) as [-> | Hk].
    + split; [discriminate | intuition].
    + rewrite IH. intuition.
Qed.




End DictFacts.


Lemma map_fst_map {A B} (f : A -> B) (d : list (string * A)) :
  map fst (map (fun kv => (fst kv, f (snd kv))) d) = map fst d.
Proof. rewrite map_map. reflexivity. Qed.

(** ** [parse_qs] groups the pairs of [parse_qsl] by name *)





(** ** Cutting and joining strings *)

Lemma str_contains_app c a b :
  str_contains c (a +++ b) = str_contains c a || str_contains c b.
Proof.
  induction a as [| d a IH]; cbn [String.append str_contains]; [reflexivity |].
  rewrite IH, orb_assoc. reflexivity.
Qed.

Lemma lacks_app c a b : lacks c (a +++ b) <-> lacks c a /\ lacks c b.
Proof. unfold lacks. rewrite str_contains_app. apply orb_false_iff. Qed.

Lemma str_cut_lacks c s : lacks c s -> str_cut c s = None.
Proof.
  unfold lacks. induction s as [| d s IH]; cbn [str_contains str_cut]; [reflexivity |].
  intros H. apply orb_false_iff in H as [-> H]. rewrite (IH H). reflexivity.
Qed.

Lemma str_cut_None c s : str_cut c s = None -> lacks c s.
Proof.
  unfold lacks. induction s as [| d s IH]; cbn [str_contains str_cut]; [reflexivity |].
  destruct (Ascii.eqb c d); [discriminate |].
  destruct (str_cut c s) as [[] |]; [discriminate | auto].
Qed.

Lemma str_cut_Some c s a b :
  str_cut c s = Some (a, b) -> s = a +++ String c b /\ lacks c a.
Proof.
  unfold lacks. revert a. induction s as [| d s IH]; cbn [str_cut]; intros a; [discriminate |].
  destruct (Ascii.eqb_spec c d) as [-> | Hne].
  - intros [= <- <-]. split; reflexivity.
  - destruct (str_cut c s) as [[a' b'] |]; [| discriminate].
    intros [= <- <-]. destruct (IH a' eq_refl) as [-> Hl].
    split; [reflexivity |]. cbn [str_contains].
    destruct (Ascii.eqb_spec c d); [contradiction | assumption].
Qed.

Lemma str_cut_app c a b : lacks c a -> str_cut c (a +++ String c b) = Some (a, b).
Proof.
  unfold lacks. induction a as [| d a IH]; cbn [String.append str_cut str_contains].
  - rewrite Ascii.eqb_refl. reflexivity.
  - intros H. apply orb_false_iff in H as [-> H]. rewrite (IH H). reflexivity.
Qed.

Lemma str_rcut_Some c s a b : str_rcut c s = Some (a, b) -> s = a +++ String c b.
Proof.
  revert a. induction s as [| d s IH]; cbn [str_rcut]; intros a; [discriminate |].
  destruct (str_rcut c s) as [[a' b'] |].
  - intros [= <- <-]. rewrite (IH a' eq_refl). reflexivity.
  - destruct (Ascii.eqb_spec c d) as [-> | Hne]; [| discriminate].
    intros [= <- <-]. reflexivity.
Qed.

Lemma str_break_spec p s a b :
  str_break p s = (a, b) -> s = a +++ b /\ str_forall (fun c => negb (p c)) a = true.
Proof.
  revert a. induction s as [| d s IH]; cbn [str_break]; intros a.
  - intros [= <- <-]. split; reflexivity.
  - destruct (p d) eqn:E.
    + intros [= <- <-]. split; reflexivity.
    + destruct (str_break p s) as [a' b'].
      intros [= <- <-]. destruct (IH a' eq_refl) as [-> H].
      split; [reflexivity |]. cbn [str_forall]. rewrite E, H. reflexivity.
Qed.

Lemma str_forall_app p a b :
  str_forall p (a +++ b) = str_forall p a && str_forall p b.
Proof.
  induction a as [| d a IH]; cbn [String.append str_forall]; [reflexivity |].
  rewrite IH, andb_assoc. reflexivity.
Qed.

Lemma str_forall_lacks p c s :
  p c = false -> str_forall p s = true -> lacks c s.
Proof.
  unfold lacks. intros Hp. induction s as [| d s IH]; cbn [str_forall str_contains]; [reflexivity |].
  intros H. apply andb_true_iff in H as [Hd Hs]. rewrite (IH Hs), orb_false_r.
  destruct (Ascii.eqb_spec c d); [congruence | reflexivity].
Qed.

Lemma str_forall_impl (p q : ascii -> bool) s :
  (forall c, p c = true -> q c = true) -> str_forall p s = true -> str_forall q s = true.
Proof.
  intros Hpq. induction s as [| d s IH]; cbn [str_forall]; [reflexivity |].
  intros H. apply andb_true_iff in H as [Hd Hs]. rewrite (Hpq _ Hd), (IH Hs). reflexivity.
Qed.

Lemma str_split_lacks c s : lacks c s -> str_split c s = [s].
Proof.
  unfold lacks. induction s as [| d s IH]; cbn [str_contains str_split]; [reflexivity |].
  intros H. apply orb_false_iff in H as [-> H]. rewrite (IH H). reflexivity.
Qed.

Lemma str_split_app c a b :
  lacks c a -> str_split c (a +++ String c b) = a :: str_split c b.
Proof.
  unfold lacks. induction a as [| d a IH]; cbn [String.append str_split str_contains].
  - rewrite Ascii.eqb_refl. destruct (str_split c b) eqn:E; [| reflexivity].
    exfalso. destruct b; cbn [str_split] in E; [discriminate |].
    destruct (str_split c b); [discriminate |]. destruct (Ascii.eqb c a); discriminate.
  - intros H. apply orb_false_iff in H as [-> H]. rewrite (IH H). reflexivity.
Qed.

Lemma str_split_join c (fields : list string) :
  fields <> [] ->
  Forall (lacks c) fields ->
  str_split c (str_join (String c EmptyString) fields) = fields.
Proof.
  induction fields as [| f rest IH]; [congruence |]. intros _ H.
  inversion H as [| ? ? Hf Hr]; subst.
  destruct rest as [| g rest].
  - cbn [str_join]. apply str_split_lacks, Hf.
  - change (str_join (String c "") (f :: g :: rest))
      with (f +++ String c "" +++ str_join (String c "") (g :: rest)).
    change (String c "" +++ ?x) with (String c x).
    rewrite str_split_app by assumption. f_equal. apply IH; [discriminate | assumption].
Qed.

(** ** What [quote_plus] can emit *)

Lemma quote_plus_char_safe c : str_forall query_safe (quote_plus_char c) = true.
Proof. destruct c as [[] [] [] [] [] [] [] []]; reflexivity. Qed.

Lemma quote_plus_safe s : str_forall query_safe (quote_plus s) = true.
Proof.
  induction s as [| c s IH]; cbn [quote_plus]; [reflexivity |].
  rewrite str_forall_app, quote_plus_char_safe, IH. reflexivity.
Qed.

Lemma quote_plus_lacks c s : query_safe c = false -> lacks c (quote_plus s).
Proof. intros H. eapply str_forall_lacks; [exact H | apply quote_plus_safe]. Qed.

Lemma field_of_lacks c k v :
  query_safe c = false -> c <> "="%char -> lacks c (field_of k v).
Proof.
  intros Hs Hne. unfold field_of.
  apply lacks_app; split; [apply quote_plus_lacks, Hs |].
  apply lacks_app; split; [| apply quote_plus_lacks, Hs].
  unfold lacks. cbn [str_contains]. destruct (Ascii.eqb_spec c "="); [contradiction | reflexivity].
Qed.

Lemma urlencode_item_fields kv f :
  In f (urlencode_item kv) -> exists v, f = field_of (fst kv) v.
Proof.
  unfold urlencode_item. destruct (snd kv) as [n | s | l].
  - intros [<- | []]. exists (str_of_int n). reflexivity.
  - intros [<- | []]. exists s. reflexivity.
  - rewrite in_map_iff. intros (v & <- & _). exists v. reflexivity.
Qed.

Lemma urlencode_fields_lack c (q : list (string * qvalue)) :
  query_safe c = false -> c <> "="%char ->
  Forall (lacks c) (flat_map urlencode_item q).
Proof.
  intros Hs Hne. apply Forall_forall. intros f Hf.
  apply in_flat_map in Hf as (kv & _ & Hf).
  apply urlencode_item_fields in Hf as [v ->]. apply field_of_lacks; assumption.
Qed.

Lemma str_join_lacks c sep (l : list string) :
  lacks c sep -> Forall (lacks c) l -> lacks c (str_join sep l).
Proof.
  intros Hsep. induction l as [| x rest IH]; intros H; [reflexivity |].
  inversion H as [| ? ? Hx Hr]; subst.
  destruct rest as [| y rest]; [exact Hx |].
  change (str_join sep (x :: y :: rest)) with (x +++ sep +++ str_join sep (y :: rest)).
  apply lacks_app; split; [exact Hx |]. apply lacks_app; split; [exact Hsep | auto].
Qed.

Lemma urlencode_lacks c (q : list (string * qvalue)) :
  query_safe c = false -> c <> "="%char -> c <> "&"%char -> lacks c (urlencode q).
Proof.
  intros Hs He Ha. unfold urlencode. apply str_join_lacks.
  - unfold lacks. cbn [str_contains]. destruct (Ascii.eqb_spec c "&"); [contradiction | reflexivity].
  - apply urlencode_fields_lack; assumption.
Qed.

Lemma nonempty_field_of k v : nonempty (field_of k v) = true.
Proof.
  unfold field_of. destruct (quote_plus k); reflexivity.
Qed.

Lemma nonempty_urlencode (q : list (string * qvalue)) :
  nonempty (urlencode q) = match flat_map urlencode_item q with [] => false | _ => true end.
Proof.
  unfold urlencode.
  assert (H : forall f, In f (flat_map urlencode_item q) -> nonempty f = true).
  { intros f Hf. apply in_flat_map in Hf as (kv & _ & Hf).
    apply urlencode_item_fields in Hf as [v ->]. apply nonempty_field_of. }
  destruct (flat_map urlencode_item q) as [| f rest]; [reflexivity |].
  specialize (H f (or_introl eq_refl)).
  destruct rest; cbn [str_join]; [exact H |].
  destruct f; [discriminate | reflexivity].
Qed.

(** ** The parts [urlparse] returns hold no query or fragment mark *)

Lemma unmarked_app a b : unmarked (a +++ b) <-> unmarked a /\ unmarked b.
Proof. unfold unmarked. rewrite !lacks_app. tauto. Qed.

Lemma unmarked_empty : unmarked "".
Proof. split; reflexivity. Qed.

Lemma unmarked_cons c s :
  Ascii.eqb "?" c = false -> Ascii.eqb "#" c = false -> unmarked s ->
  unmarked (String c s).
Proof.
  intros H1 H2 [Hq Hh]. unfold unmarked, lacks. cbn [str_contains].
  rewrite H1, H2. split; assumption.
Qed.

Ltac unmarked_tac :=
  repeat first
    [ assumption
    | apply unmarked_empty
    | apply unmarked_cons; [reflexivity | reflexivity |]
    | apply unmarked_app; split ].

Lemma scheme_char_lower c :
  scheme_char c = true ->
  negb (Ascii.eqb (lower_char c) "?" || Ascii.eqb (lower_char c) "#") = true.
Proof.
  destruct c as [[] [] [] [] [] [] [] []]; intros H;
    first [reflexivity | vm_compute in H; discriminate H].
Qed.

Lemma str_forall_lower p q s :
  (forall c, p c = true -> q (lower_char c) = true) ->
  str_forall p s = true -> str_forall q (str_lower s) = true.
Proof.
  intros Hpq. induction s as [| d s IH]; cbn [str_forall str_lower]; [reflexivity |].
  intros H. apply andb_true_iff in H as [Hd Hs]. rewrite (Hpq _ Hd), (IH Hs). reflexivity.
Qed.

Lemma unmarked_forall s :
  str_forall (fun c => negb (Ascii.eqb c "?" || Ascii.eqb c "#")) s = true -> unmarked s.
Proof.
  intros H. split; eapply str_forall_lacks; try exact H; reflexivity.
Qed.

Lemma split_scheme_unmarked url sch rest :
  split_scheme url = (sch, rest) -> unmarked sch.
Proof.
  unfold split_scheme.
  destruct (str_cut ":" url) as [[[| c0 pre] post] |];
    try (intros [= <- <-]; apply unmarked_empty).
  destruct (is_ascii_char c0 && is_alpha c0 && str_forall scheme_char (String c0 pre)) eqn:E;
    [| intros [= <- <-]; apply unmarked_empty].
  intros [= <- <-]. apply andb_true_iff in E as [_ E].
  apply unmarked_forall.
  apply (str_forall_lower scheme_char _ (String c0 pre)); [| exact E].
  apply scheme_char_lower.
Qed.

Lemma splitnetloc_unmarked url nl rest : _splitnetloc url = (nl, rest) -> unmarked nl.
Proof.
  unfold _splitnetloc. destruct url as [| a [| b r]];
    try (intros [= <- <-]; apply unmarked_empty).
  intros H. apply str_break_spec in H as [_ H]. apply unmarked_forall.
  eapply str_forall_impl; [| exact H].
  intros c Hc. cbv beta in Hc.
  destruct (Ascii.eqb c "/"), (Ascii.eqb c "?"), (Ascii.eqb c "#"); try discriminate; reflexivity.
Qed.

Lemma splitparams_unmarked url a b :
  unmarked url -> _splitparams url = (a, b) -> unmarked a /\ unmarked b.
Proof.
  intros Hu. unfold _splitparams.
  destruct (str_rcut "/" url) as [[dir last] |] eqn:Er.
  - apply str_rcut_Some in Er. subst url.
    apply unmarked_app in Hu as [Hd Hl].
    change (String "/" last) with ("/" +++ last) in Hl.
    apply unmarked_app in Hl as [_ Hl].
    destruct (str_cut ";" last) as [[name ps] |] eqn:Ec.
    + apply str_cut_Some in Ec as [-> _].
      apply unmarked_app in Hl as [Hn Hp].
      change (String ";" ps) with (";" +++ ps) in Hp.
      apply unmarked_app in Hp as [_ Hp].
      intros [= <- <-]. split; unmarked_tac.
    + intros [= <- <-]. split; unmarked_tac.
  - destruct (str_cut ";" url) as [[name ps] |] eqn:Ec.
    + apply str_cut_Some in Ec as [-> _].
      apply unmarked_app in Hu as [Hn Hp].
      change (String ";" ps) with (";" +++ ps) in Hp.
      apply unmarked_app in Hp as [_ Hp].
      intros [= <- <-]. split; assumption.
    + intros [= <- <-]. split; unmarked_tac.
Qed.

Section UrlFacts.
Variable netloc_ok : string -> bool.

Lemma urlparse_unmarked url u :
  urlparse netloc_ok url = Ret u ->
  unmarked (scheme u) /\ unmarked (netloc u) /\ unmarked (path u) /\ unmarked (params u).
Proof.
  unfold urlparse.
  set (u0 := str_remove _ _).
  destruct (split_scheme u0) as [sch u1] eqn:Es.
  destruct (if starts_with_two_slashes u1 then _splitnetloc u1 else ("", u1))
    as [nl u2] eqn:En.
  destruct ((str_contains "[" nl && negb (str_contains "]" nl))
            || (str_contains "]" nl && negb (str_contains "[" nl))); [discriminate |].
  destruct (if str_contains "[" nl && str_contains "]" nl
            then _check_bracketed_netloc netloc_ok nl else Ret tt); [| discriminate].
  destruct (match str_cut "#" u2 with Some (u, f) => (u, f) | None => (u2, "") end)
    as [u3 frag] eqn:Ef.
  destruct (match str_cut "?" u3 with Some (u, q) => (u, q) | None => (u3, "") end)
    as [u4 q] eqn:Eq.
  destruct (_checknetloc netloc_ok nl); [| discriminate].
  destruct (if str_in sch uses_params && str_contains ";" u4
            then _splitparams u4 else (u4, "")) as [u5 ps] eqn:Ep.
  intros [= <-]. cbn [scheme netloc path params].
  assert (H3 : lacks "#" u3).
  { destruct (str_cut "#" u2) as [[x y] |] eqn:E; injection Ef as <- <-.
    - apply str_cut_Some in E as [_ E]. exact E.
    - apply str_cut_None, E. }
  assert (H4 : unmarked u4).
  { destruct (str_cut "?" u3) as [[x y] |] eqn:E; injection Eq as <- <-.
    - apply str_cut_Some in E as [-> E]. apply lacks_app in H3 as [H3 _]. split; assumption.
    - split; [apply str_cut_None, E | exact H3]. }
  split; [eapply split_scheme_unmarked; exact Es |].
  split.
  { destruct (starts_with_two_slashes u1).
    - eapply splitnetloc_unmarked; exact En.
    - injection En as <- <-. apply unmarked_empty. }
  destruct (str_in sch uses_params && str_contains ";" u4).
  - apply (splitparams_unmarked _ _ _ H4 Ep).
  - injection Ep as <- <-. split; [exact H4 | apply unmarked_empty].
Qed.

Lemma raw_query_marks base q frag :
  unmarked base -> lacks "#" q ->
  raw_query (let url := if nonempty q then base +++ "?" +++ q else base in
             if nonempty frag then url +++ "#" +++ frag else url) = q.
Proof.
  intros [Hq Hh] Hl. unfold raw_query. cbv zeta.
  assert (Hcut : forall x, lacks "?" x -> lacks "#" x ->
            match str_cut "?" x with Some (_, y) => y | None => "" end = ""
            /\ match str_cut "?" (x +++ "?" +++ q) with Some (_, y) => y | None => "" end = q).
  { intros x H1 H2. rewrite (str_cut_lacks _ _ H1).
    change ("?" +++ q) with (String "?" q). rewrite (str_cut_app _ _ _ H1). split; reflexivity. }
  destruct (Hcut base Hq Hh) as [C1 C2].
  destruct q as [| c q'].
  - cbn [nonempty]. destruct frag as [| d f]; cbn [nonempty].
    + rewrite (str_cut_lacks _ _ Hh). exact C1.
    + change ("#" +++ String d f) with (String "#" (String d f)).
      rewrite (str_cut_app _ _ _ Hh). exact C1.
  - cbn [nonempty]. set (q := String c q') in *.
    assert (Hb : lacks "#" (base +++ "?" +++ q)).
    { apply lacks_app; split; [exact Hh |]. apply lacks_app; split; [reflexivity | exact Hl]. }
    destruct frag as [| d f]; cbn [nonempty].
    + rewrite (str_cut_lacks _ _ Hb). exact C2.
    + change ("#" +++ String d f) with (String "#" (String d f)).
      rewrite (str_cut_app _ _ _ Hb). exact C2.
Qed.

Lemma urlunparse_unmarked_base u :
  unmarked (scheme u) -> unmarked (netloc u) -> unmarked (path u) -> unmarked (params u) ->
  exists base, unmarked base /\
    forall q, urlunparse (set_query q u) =
      (let url := if nonempty q then base +++ "?" +++ q else base in
       if nonempty (fragment u) then url +++ "#" +++ fragment u else url).
Proof.
  intros Hs Hn Hp Hps.
  unfold urlunparse. cbn [set_query scheme netloc path params query fragment].
  set (u1 := if nonempty (params u) then path u +++ ";" +++ params u else path u).
  assert (H1 : unmarked u1).
  { subst u1. destruct (nonempty (params u)); unmarked_tac. }
  set (u2 := if nonempty (netloc u)
                || nonempty (scheme u) && str_in (scheme u) uses_netloc
                   && negb (starts_with_two_slashes u1)
             then _ else u1).
  assert (H2 : unmarked u2).
  { subst u2. destruct (_ || _); [| exact H1].
    destruct u1 as [| c r]; [unmarked_tac |].
    destruct (Ascii.eqb c "/"); unmarked_tac. }
  set (u3 := if nonempty (scheme u) then scheme u +++ ":" +++ u2 else u2).
  assert (H3 : unmarked u3).
  { subst u3. destruct (nonempty (scheme u)); unmarked_tac. }
  exists u3. split; [exact H3 | reflexivity].
Qed.

End UrlFacts.

Section Merge.
Variable netloc_ok : string -> bool.






End Merge.


Example add_querystring_offset_limit :
  add_querystring (fun _ => true) "/variables?offset=5" [("limit", QInt 10)]
  = Ret "/variables?offset=5&limit=10".
Proof. vm_compute. reflexivity. Qed.

Example add_querystring_overrides :
  add_querystring (fun _ => true) "https://api.envbee.dev/variables?offset=5&x=a%20b#top"
    [("offset", QInt 7); ("limit", QInt 10)]
  = Ret "https://api.envbee.dev/variables?offset=7&x=a+b&limit=10#top".
Proof. vm_compute. reflexivity. Qed.

(** [urlparse] rejects a netloc with an unmatched bracket, and so does
    [add_querystring]. *)
Example add_querystring_rejects :
  add_querystring (fun _ => true) "//[x/variables?offset=5" [("limit", QInt 10)]
  = Raise (ValueError "Invalid IPv6 URL").
Proof. vm_compute. reflexivity. Qed.

(** C7.  [add_querystring] loses a parameter of the URL that has no
    value, and rewrites an escape that is not UTF-8.  From
    [/variables?flag=&offset=5] and a limit of 10 it makes
    [/variables?offset=5&limit=10]: the parameter [flag] is in the URL
    given, the dictionary does not supply it, and no field of the URL
    returned has its name.  From [/variables?x=%FF] it makes
    [/variables?x=%EF%BF%BD&limit=10].  [parse_qs] is called with its
    defaults, [keep_blank_values=False] and [errors="replace"]. *)
Theorem add_querystring_drops_blank_parameter (netloc_ok : string -> bool) :
  add_querystring netloc_ok "/variables?flag=&offset=5" [("limit", QInt 10)]
  = Ret "/variables?offset=5&limit=10"
  /\ In "flag=" (url_fields "/variables?flag=&offset=5")
  /\ dict_get "flag" [("limit", QInt 10)] = None
  /\ ~ In "flag" (map field_key (url_fields "/variables?offset=5&limit=10"))
  /\ add_querystring netloc_ok "/variables?x=%FF" [("limit", QInt 10)]
     = Ret "/variables?x=%EF%BF%BD&limit=10".
Proof.
  split; [vm_compute; reflexivity |].
  split; [left; reflexivity |].
  split; [reflexivity |].
  split; [| vm_compute; reflexivity].
  vm_compute. intros [H | [H | []]]; discriminate H.
Qed.


(** Not every parameter of the URL is kept: the field [flag=] of the
    URL has a name the dictionary does not supply, and no field of the
    result has that name. *)
Lemma add_querystring_stated_counterexample :
  ~ (forall netloc_ok url params r,
       add_querystring netloc_ok url params = Ret r ->
       forall f, In f (url_fields url) ->
                 dict_get (field_key f) params = None ->
                 In (field_key f) (map field_key (url_fields r))).
Proof.
  intros H.
  specialize (H (fun _ => true) "/variables?flag=&offset=5" [("limit", QInt 10)]
                "/variables?offset=5&limit=10" eq_refl "flag="
                (or_introl eq_refl) eq_refl).
  vm_compute in H. destruct H as [H | [H | []]]; discriminate H.
Qed.

(** * Further properties of the code *)

(** ** Cache keys, and the store *)

Lemma pyval_eqb_true : forall a b, pyval_eqb a b = true -> a = b.
Proof.
  fix IH 1. intros a b. destruct a, b; cbn [pyval_eqb]; try discriminate; intros H.
  - reflexivity.
  - apply Bool.eqb_prop in H. congruence.
  - apply Z.eqb_eq in H. congruence.
  - apply Z.eqb_eq in H. congruence.
  - apply String.eqb_eq in H. congruence.
  - f_equal. revert l0 H. induction l as [| u us IHl]; intros [| v vs] H;
      try discriminate; [reflexivity |].
    apply andb_true_iff in H as [H1 H2]. f_equal; [apply IH, H1 | apply IHl, H2].
  - f_equal. revert d0 H. induction d as [| [j u] us IHl]; intros [| [k v] vs] H;
      try discriminate; [reflexivity |].
    apply andb_true_iff in H as [H12 H3]. apply andb_true_iff in H12 as [H1 H2].
    apply String.eqb_eq in H1. f_equal; [f_equal; [exact H1 | apply IH, H2] | apply IHl, H3].
Qed.

Lemma pyval_eqb_spec a b : reflect (a = b) (pyval_eqb a b).
Proof.
  destruct (pyval_eqb a b) eqn:E; constructor.
  - apply pyval_eqb_true, E.
  - intros ->. rewrite pyval_eqb_refl in E. discriminate.
Qed.

(** What [WHERE key = ? AND raw = ?] comes to: a key finds the row of
    another exactly when SQLite sees the same of both. *)
Lemma key_match_iff a b :
  key_match a b = true <-> exists c, class_of a = Some c /\ class_of b = Some c.
Proof.
  assert (Hp : forall u v, pyval_eqb u v = true <->
                           exists c, Some (PickleKey v) = Some c
                                     /\ Some (PickleKey u) = Some c).
  { intros u v. split.
    - intros H. apply pyval_eqb_true in H. subst. eauto.
    - intros (c & E1 & E2). rewrite <- E1 in E2. injection E2 as ->.
      apply pyval_eqb_refl. }
  unfold key_match, class_of, disk_put.
  destruct a as [| ba | na | xa | sa | la | da], b as [| bb | nb | xb | sb | lb | db];
    repeat match goal with
           | |- context [if is_int64 ?n then _ else _] => destruct (is_int64 n)
           | |- context [if float_is_nan ?n then _ else _] => destruct (float_is_nan n)
           end;
    cbn [sql_eq Bool.eqb andb orb];
    rewrite ?andb_true_r, ?andb_false_r;
    try (rewrite Hp; tauto);
    try (split; [discriminate | intros (c & E1 & E2); congruence]).
  all: try (destruct (float_is_inf xa) eqn:Ia); try (destruct (float_is_inf xb) eqn:Ib);
    cbn [negb andb orb].
  all: try (split; [discriminate | intros (c & E1 & E2); congruence]).
  - split.
    + intros H. apply Z.eqb_eq in H. subst. eauto.
    + intros (c & E1 & E2). rewrite <- E1 in E2. injection E2 as E2.
      apply Z.eqb_eq. change (Z.pow_pos 2 1074) with (2 ^ 1074)%Z in E2.
      apply Z.mul_cancel_r in E2; [exact E2 |]. apply Z.pow_nonzero; lia.
  - split.
    + intros H. apply Z.eqb_eq in H. rewrite H. eauto.
    + intros (c & E1 & E2). rewrite <- E1 in E2. injection E2 as E2.
      apply Z.eqb_eq. symmetry. exact E2.
  - split.
    + intros H. apply Z.eqb_eq in H. rewrite H. eauto.
    + intros (c & E1 & E2). rewrite <- E1 in E2. injection E2 as E2.
      apply Z.eqb_eq. exact E2.
  - split.
    + intros H. apply Bool.eqb_prop in H. rewrite H. eauto.
    + intros (c & E1 & E2). rewrite <- E1 in E2. injection E2 as ->. apply Bool.eqb_reflx.
  - split.
    + intros H. apply Z.eqb_eq in H. rewrite H. eauto.
    + intros (c & E1 & E2). rewrite <- E1 in E2. injection E2 as E2.
      apply Z.eqb_eq. exact E2.
  - split.
    + intros H. apply String.eqb_eq in H. subst. eauto.
    + intros (c & E1 & E2). rewrite <- E1 in E2. injection E2 as ->. apply String.eqb_refl.
Qed.

Lemma key_match_sym a b : key_match a b = key_match b a.
Proof.
  apply Bool.eq_true_iff_eq. rewrite !key_match_iff.
  split; intros (c & E1 & E2); eauto.
Qed.

(** Two keys that find each other find the same rows. *)
Lemma key_match_same a b k : key_match a b = true -> key_match a k = key_match b k.
Proof.
  intros H. apply key_match_iff in H as (c0 & Ea & Eb).
  apply Bool.eq_true_iff_eq. rewrite !key_match_iff.
  split; intros (c & E1 & E2); exists c; split; congruence.
Qed.

Lemma key_match_refl_l a b : key_match a b = true -> key_match a a = true.
Proof.
  intros H. apply key_match_iff in H as (c & Ea & _). apply key_match_iff. eauto.
Qed.

(** A key other than a NaN is read back as it was written. *)
Lemma key_read_own k : key_match k k = true -> key_read k = k.
Proof.
  intros H. apply key_match_iff in H as (c & E & _). unfold key_read.
  destruct k; try reflexivity; cbn [disk_put fst class_of] in *.
  - destruct (is_int64 n); reflexivity.
  - destruct (float_is_nan bits); [discriminate | reflexivity].
Qed.

Lemma store_get_same a b c : key_match a b = true -> store_get a c = store_get b c.
Proof.
  intros H. induction c as [| [k v] rest IH]; cbn [store_get]; [reflexivity |].
  rewrite (key_match_same a b k H), IH. reflexivity.
Qed.

(** What [get(k')] gives after [set(k, v)]. *)
Lemma store_get_set_any k k' v c :
  store_get k' (store_set k v c)
  = if key_match k' k then Some (value_read v) else store_get k' c.
Proof.
  destruct (key_match k' k) eqn:E.
  - rewrite (store_get_same k' k _ E). apply store_get_set.
    rewrite key_match_sym in E. apply (key_match_refl_l k k' E).
  - induction c as [| [k1 v1] rest IH]; cbn [store_set store_get].
    + rewrite E. reflexivity.
    + destruct (key_match k k1) eqn:E1; cbn [store_get].
      * destruct (key_match k' k1) eqn:E2; [| reflexivity].
        rewrite key_match_sym, (key_match_same k k1 k' E1), key_match_sym, E2 in E.
        discriminate.
      * rewrite IH. reflexivity.
Qed.

Lemma store_get_set_other k k' v c :
  key_match k' k = false -> store_get k' (store_set k v c) = store_get k' c.
Proof. intros H. rewrite store_get_set_any, H. reflexivity. Qed.

Lemma key_match_str_other name other :
  other <> name -> key_match (PStr other) (PStr name) = false.
Proof.
  intros H. rewrite key_match_str. apply String.eqb_neq. congruence.
Qed.

Lemma store_set_keys_present k v c x :
  store_get k c = Some x -> map fst (store_set k v c) = map fst c.
Proof.
  induction c as [| [k1 v1] rest IH]; cbn [store_set store_get map fst]; [discriminate |].
  destruct (key_match k k1); [reflexivity |]. intros H. cbn [map fst]. f_equal. auto.
Qed.

Lemma store_set_fresh k v c :
  store_get k c = None -> store_set k v c = c ++ [(k, v)].
Proof.
  induction c as [| [k1 v1] rest IH]; cbn [store_set store_get app]; [reflexivity |].
  destruct (key_match k k1); [discriminate |]. intros H. f_equal. auto.
Qed.

Lemma store_get_In name c :
  store_get (PStr name) c = None <-> ~ In (PStr name) (map fst c).
Proof.
  induction c as [| [k1 v1] rest IH]; cbn [store_get map fst In]; [tauto |].
  destruct (key_match (PStr name) k1) eqn:E.
  - apply key_match_str_true in E. subst k1.
    split; [discriminate | intros H; exfalso; auto].
  - rewrite IH. split; [intros H [E' | E']; [| auto] | tauto].
    subst k1. rewrite key_match_str_refl in E. discriminate.
Qed.

(** The store after a run of [set]s: for each key the last value that
    was written to its row. *)
Lemma store_get_store_all k entries : forall c,
  store_get k (store_all entries c) =
  match last_value k entries with
  | Some v => Some (value_read v)
  | None => store_get k c
  end.
Proof.
  unfold store_all.
  induction entries as [| [k1 v1] rest IH]; intros c; cbn [fold_left last_value fst snd].
  - reflexivity.
  - rewrite IH. destruct (last_value k rest); [reflexivity |].
    rewrite store_get_set_any. destruct (key_match k k1); reflexivity.
Qed.

Lemma store_all_fresh pairs : forall c,
  NoDup (map fst c ++ map fst (map named pairs)) ->
  store_all (map named pairs) c = c ++ map named pairs.
Proof.
  unfold store_all.
  induction pairs as [| [n v] rest IH]; intros c H; cbn [map named fold_left fst snd].
  - rewrite app_nil_r. reflexivity.
  - cbn [map fst named] in H.
    assert (Hk : store_get (PStr n) c = None).
    { apply store_get_In. intros Hin. apply NoDup_remove_2 in H. apply H.
      apply in_or_app. left. exact Hin. }
    rewrite (store_set_fresh _ _ _ Hk), IH.
    + rewrite <- app_assoc. reflexivity.
    + rewrite map_app. cbn [map fst]. rewrite <- app_assoc. exact H.
Qed.

(** The names [1] and [1.0] share a row, which keeps the key it was made
    with; a NaN that was written is read back as [None]. *)
Example numeric_names_share_a_row :
  store_all [(PInt 1, PStr "a"); (PFloat 0x3ff0000000000000, PStr "b")] []
  = [(PInt 1, PStr "b")].
Proof. vm_compute. reflexivity. Qed.

Example nan_value_read_back :
  store_get (PStr "K") (store_set (PStr "K") (PFloat nan_bits) []) = Some PNone.
Proof. vm_compute. reflexivity. Qed.

(** ** Reading the whole cache *)

Lemma forallb_store_set (P : pyval -> bool) k v c :
  P k = true ->
  forallb (fun row => P (fst row)) c = true ->
  forallb (fun row => P (fst row)) (store_set k v c) = true.
Proof.
  intros Hk. induction c as [| [k1 v1] rest IH]; cbn [store_set forallb fst].
  - rewrite Hk. reflexivity.
  - intros H. apply andb_true_iff in H as [H1 H2].
    destruct (key_match k k1); cbn [forallb fst]; rewrite H1; [exact H2 | apply IH, H2].
Qed.

(** [set] keeps the rows apart, as the unique index does. *)
Lemma distinct_rows_store_set k v c :
  distinct_rows c = true -> distinct_rows (store_set k v c) = true.
Proof.
  induction c as [| [k1 v1] rest IH]; cbn [store_set distinct_rows]; [reflexivity |].
  intros H. apply andb_true_iff in H as [H1 H2].
  destruct (key_match k k1) eqn:E; cbn [distinct_rows].
  - rewrite H1. exact H2.
  - rewrite (forallb_store_set (fun q => negb (key_match q k1))), IH;
      [reflexivity | exact H2 | rewrite E; reflexivity | exact H1].
Qed.

Lemma readable_store_set k v c :
  key_match k k = true -> readable c = true -> readable (store_set k v c) = true.
Proof. intros Hk. apply (forallb_store_set (fun q => key_match q q)), Hk. Qed.

Lemma store_all_rows entries : forall c,
  readable entries = true ->
  readable c = true -> distinct_rows c = true ->
  readable (store_all entries c) = true /\ distinct_rows (store_all entries c) = true.
Proof.
  unfold store_all.
  induction entries as [| [k v] rest IH]; intros c He Hr Hd; cbn [fold_left fst snd].
  - split; assumption.
  - cbn [readable forallb fst] in He. apply andb_true_iff in He as [Hk He].
    apply IH; [exact He | apply readable_store_set; assumption
               | apply distinct_rows_store_set; assumption].
Qed.

Lemma distinct_rows_later pre : forall k v rest,
  distinct_rows (pre ++ (k, v) :: rest) = true ->
  forall k', key_match k' k = true -> store_get k' (pre ++ (k, v) :: rest)
                                      = Some (value_read v).
Proof.
  induction pre as [| [k0 v0] pre IH]; intros k v rest H k' Hk;
    cbn [app store_get].
  - rewrite Hk. reflexivity.
  - cbn [app distinct_rows] in H. apply andb_true_iff in H as [H1 H2].
    rewrite forallb_app in H1. apply andb_true_iff in H1 as [_ H1].
    cbn [forallb fst] in H1. apply andb_true_iff in H1 as [H1 _].
    apply negb_true_iff in H1.
    rewrite (key_match_same k' k k0 Hk), H1. apply IH; assumption.
Qed.

(** A table whose keys are all read back as written lists as its rows,
    each value as the table gives it back. *)
Lemma store_entries_rows suffix : forall pre,
  readable suffix = true ->
  distinct_rows (pre ++ suffix) = true ->
  store_entries (store_keys suffix) (pre ++ suffix) = Ret (map read_back suffix).
Proof.
  induction suffix as [| [k v] rest IH]; intros pre Hr Hd; [reflexivity |].
  cbn [readable forallb fst] in Hr. apply andb_true_iff in Hr as [Hk Hr].
  cbn [store_keys map store_entries fst]. unfold store_getitem.
  rewrite (key_read_own k Hk), (distinct_rows_later pre k v rest Hd k Hk).
  change (map (fun row => key_read (fst row)) rest) with (store_keys rest).
  replace (pre ++ (k, v) :: rest) with ((pre ++ [(k, v)]) ++ rest)
    by (rewrite <- app_assoc; reflexivity).
  rewrite IH; [reflexivity | exact Hr | rewrite <- app_assoc; exact Hd].
Qed.

Lemma cached_entries_rows w :
  hd false (faults w) = false ->
  readable (cache w) = true -> distinct_rows (cache w) = true ->
  cached_entries w = PList (map read_back (cache w)).
Proof.
  intros Hf Hr Hd. unfold cached_entries.
  pose proof (store_entries_rows (cache w) [] Hr Hd) as H. cbn [app] in H. rewrite H.
  destruct (faults w) as [| [] ?]; try discriminate; reflexivity.
Qed.

Lemma named_rows (pairs : list (string * pyval)) :
  NoDup (map fst pairs) ->
  readable (map named pairs) = true /\ distinct_rows (map named pairs) = true.
Proof.
  induction pairs as [| [n v] rest IH]; cbn [map fst named readable forallb distinct_rows];
    intros H; [split; reflexivity |].
  inversion H as [| ? ? Hn Hr]; subst. destruct (IH Hr) as [IH1 IH2].
  fold (readable (map named rest)). rewrite key_match_str_refl, IH1, IH2.
  split; [reflexivity |]. rewrite andb_true_r.
  apply forallb_forall. intros row Hin.
  apply in_map_iff in Hin as ([m y] & <- & Hin). cbn [named fst].
  rewrite key_match_str_other; [reflexivity |].
  intros ->. apply Hn. change n with (fst (n, y)). apply in_map, Hin.
Qed.

(** A NaN finds no row, and no key finds the row of one. *)
Lemma nan_key_match x k :
  float_is_nan x = true ->
  key_match (PFloat x) k = false /\ key_match k (PFloat x) = false.
Proof.
  intros Hx.
  assert (H : key_match (PFloat x) k = false).
  { destruct (key_match (PFloat x) k) eqn:E; [| reflexivity].
    apply key_match_iff in E as (c & E1 & _). cbn [class_of] in E1.
    rewrite Hx in E1. discriminate. }
  split; [exact H | rewrite key_match_sym; exact H].
Qed.

Lemma store_set_keeps_keys k v c k0 :
  In k0 (map fst c) -> In k0 (map fst (store_set k v c)).
Proof.
  induction c as [| [k1 v1] rest IH]; cbn [store_set map fst In]; [tauto |].
  destruct (key_match k k1); cbn [map fst In]; tauto.
Qed.

Lemma store_all_keeps_keys entries : forall c k0,
  In k0 (map fst c) -> In k0 (map fst (store_all entries c)).
Proof.
  unfold store_all.
  induction entries as [| [k v] rest IH]; intros c k0 H; cbn [fold_left fst snd];
    [exact H |].
  apply IH, store_set_keeps_keys, H.
Qed.

Lemma store_set_nan x v c :
  float_is_nan x = true -> In (PFloat x) (map fst (store_set (PFloat x) v c)).
Proof.
  intros Hx. induction c as [| [k1 v1] rest IH]; cbn [store_set map fst In];
    [left; reflexivity |].
  rewrite (proj1 (nan_key_match x k1 Hx)). cbn [map fst In]. right. exact IH.
Qed.

(** Every entry named by a NaN makes a row that stays. *)
Lemma store_all_keeps_nan entries : forall c x v,
  float_is_nan x = true ->
  In (PFloat x, v) entries -> In (PFloat x) (map fst (store_all entries c)).
Proof.
  induction entries as [| [k1 v1] rest IH]; intros c x v Hx Hin; [destruct Hin |].
  change (store_all ((k1, v1) :: rest) c) with (store_all rest (store_set k1 v1 c)).
  destruct Hin as [E | Hin].
  - injection E as -> ->. apply store_all_keeps_keys, store_set_nan, Hx.
  - apply (IH _ x v Hx Hin).
Qed.

Lemma nan_key_read x c :
  float_is_nan x = true -> In (PFloat x) (map fst c) -> In PNone (store_keys c).
Proof.
  intros Hx Hin. unfold store_keys. apply in_map_iff in Hin as (row & E & Hin).
  apply in_map_iff. exists row. split; [| exact Hin].
  rewrite E. unfold key_read. cbn [disk_put fst]. rewrite Hx. reflexivity.
Qed.

(** A key that finds no row makes the reading of the whole cache
    raise. *)
Lemma store_entries_unread c keys :
  In PNone keys -> store_get PNone c = None ->
  exists e, store_entries keys c = Raise e.
Proof.
  intros Hin Hn. induction keys as [| k rest IH]; [destruct Hin |].
  cbn [store_entries]. unfold store_getitem at 1.
  destruct (store_get k c) as [v |] eqn:E; [| eauto].
  destruct Hin as [-> | Hin]; [congruence |].
  destruct (IH Hin) as [e ->]. eauto.
Qed.

Lemma no_fault {A} (l : list bool) (a b : A) :
  hd false l = false -> match l with true :: _ => a | _ => b end = b.
Proof. destruct l as [| [] ?]; cbn; intros; try discriminate; reflexivity. Qed.

Lemma write_all_no_faults self entries : forall w,
  faults w = [] ->
  cache (write_all self entries w) = store_all entries (cache w)
  /\ faults (write_all self entries w) = [].
Proof.
  unfold store_all.
  induction entries as [| [k v] rest IH]; intros w Hf; cbn [write_all fold_left fst snd].
  - split; [reflexivity | exact Hf].
  - rewrite cache_variable_run. cbn [snd].
    destruct (IH (mkWorld (match faults w with true :: _ => cache w
                           | _ => store_set k v (cache w) end)
                    (tl (faults w)) (trace w ++ [CacheSet k v]))) as [H1 H2].
    { cbn [faults]. rewrite Hf. reflexivity. }
    rewrite H1, H2. cbn [cache]. rewrite Hf. split; reflexivity.
Qed.

(** ** The shape of the header *)

Lemma sha256_round_length v kw :
  List.length v = 8%nat -> List.length (SHA256.round v kw) = 8%nat.
Proof.
  intros H. do 9 (destruct v as [| ? v]; try discriminate H). reflexivity.
Qed.

Lemma sha256_rounds_length kws : forall v,
  List.length v = 8%nat -> List.length (fold_left SHA256.round kws v) = 8%nat.
Proof.
  induction kws as [| kw kws IH]; intros v H; cbn [fold_left]; [exact H |].
  apply IH, sha256_round_length, H.
Qed.

Lemma sha256_compress_length h block :
  List.length h = 8%nat -> List.length (SHA256.compress h block) = 8%nat.
Proof.
  intros H. unfold SHA256.compress.
  rewrite length_map, length_combine, sha256_rounds_length, H by exact H. reflexivity.
Qed.

Lemma sha256_blocks_length blocks : forall h,
  List.length h = 8%nat -> List.length (fold_left SHA256.compress blocks h) = 8%nat.
Proof.
  induction blocks as [| b blocks IH]; intros h H; cbn [fold_left]; [exact H |].
  apply IH, sha256_compress_length, H.
Qed.

Lemma to_le_length n x : List.length (Word32.to_le n x) = n.
Proof. revert x. induction n as [| n IH]; intros x; cbn [Word32.to_le List.length]; auto. Qed.

Lemma flat_map_to_be_length (l : list Z) :
  List.length (flat_map (Word32.to_be 4) l) = (4 * List.length l)%nat.
Proof.
  induction l as [| x l IH]; [reflexivity |].
  cbn [flat_map]. rewrite length_app, IH. unfold Word32.to_be.
  rewrite length_rev, to_le_length. cbn [List.length]. lia.
Qed.

(** a SHA-256 digest has 32 bytes *)
Lemma sha256_digest_length msg : List.length (SHA256.digest msg) = 32%nat.
Proof.
  unfold SHA256.digest. rewrite flat_map_to_be_length, sha256_blocks_length; reflexivity.
Qed.

Lemma hex_lower_nth n : is_hex_lower (nth n hex_lower "0"%char) = true.
Proof. do 17 (destruct n as [| n]; [reflexivity |]). destruct n; reflexivity. Qed.

Lemma length_append (a b : string) :
  String.length (a +++ b) = (String.length a + String.length b)%nat.
Proof. induction a as [| c a IH]; cbn; [reflexivity | rewrite IH; reflexivity]. Qed.

Lemma hexlify_shape bs :
  String.length (hexlify bs) = (2 * List.length bs)%nat
  /\ str_forall is_hex_lower (hexlify bs) = true.
Proof.
  induction bs as [| b bs [IH1 IH2]]; [split; reflexivity |].
  cbn [hexlify]. rewrite length_append, str_forall_app, IH1, IH2.
  unfold hex_pair. cbn [String.length str_forall List.length].
  rewrite !hex_lower_nth. split; [lia | reflexivity].
Qed.

Lemma uint_chars_digits d : str_forall is_digit (NilEmpty.string_of_uint d) = true.
Proof. induction d; cbn [NilEmpty.string_of_uint str_forall]; auto. Qed.

Lemma nilzero_uint_digits d : str_forall is_digit (NilZero.string_of_uint d) = true.
Proof. destruct d; try reflexivity; apply (uint_chars_digits (_ d)). Qed.

Lemma str_of_int_chars n : str_forall is_digit_or_minus (str_of_int n) = true.
Proof.
  assert (Hd : forall s, str_forall is_digit s = true -> str_forall is_digit_or_minus s = true).
  { induction s as [| c s IH]; cbn [str_forall]; [reflexivity |].
    intros H. apply andb_true_iff in H as [H1 H2].
    unfold is_digit_or_minus at 1. rewrite H1, (IH H2). reflexivity. }
  unfold str_of_int, NilZero.string_of_int. destruct (Z.to_int n) as [d | d].
  - apply Hd, nilzero_uint_digits.
  - cbn [str_forall]. rewrite (Hd _ (nilzero_uint_digits d)). reflexivity.
Qed.

Lemma str_of_int_nonneg n : (0 <= n)%Z -> str_forall is_digit (str_of_int n) = true.
Proof.
  intros H. unfold str_of_int, NilZero.string_of_int.
  destruct n as [| p | p]; cbn [Z.to_int]; try apply nilzero_uint_digits. lia.
Qed.

(** [str] of an integer tells the integer *)
Lemma str_of_int_inj n m : str_of_int n = str_of_int m -> n = m.
Proof.
  intros H. apply DecimalZ.to_int_inj.
  assert (Hn : forall z, NilZero.int_of_string (str_of_int z) = Some (Z.to_int z)).
  { intros z. apply NilZero.isi; destruct z as [| p | p]; cbn [Z.to_int];
      try discriminate; intros [= E]; apply (DecimalPos.Unsigned.to_uint_nonnil p E). }
  pose proof (Hn n) as H1. rewrite H, Hn in H1. congruence.
Qed.

(** X1.  Whatever the secret, the clock reading and the path are, the
    header is [HMAC], a space, the reading in decimal (digits, after a
    minus sign if it is negative), a colon, and 64 lowercase hexadecimal
    digits. *)
Theorem hmac_header_shape self now url_path :
  exists signature,
    _generate_hmac_header self now url_path
    = "HMAC " +++ str_of_int now +++ ":" +++ signature
    /\ String.length signature = 64%nat
    /\ str_forall is_hex_lower signature = true
    /\ str_forall is_digit_or_minus (str_of_int now) = true
    /\ ((0 <= now)%Z -> str_forall is_digit (str_of_int now) = true).
Proof.
  eexists. split; [reflexivity |]. unfold HMAC.hexdigest.
  match goal with |- context [hexlify ?d] =>
    destruct (hexlify_shape d) as [Hl Hh]; unfold HMAC.hmac_sha256 in Hl;
    rewrite sha256_digest_length in Hl end.
  split; [exact Hl |]. split; [exact Hh |].
  split; [apply str_of_int_chars | apply str_of_int_nonneg].
Qed.

Lemma header_time_inj c1 c2 n1 n2 p1 p2 :
  _generate_hmac_header c1 n1 p1 = _generate_hmac_header c2 n2 p2 -> n1 = n2.
Proof.
  unfold _generate_hmac_header. cbn [String.append]. intros H.
  injection H as H. apply str_of_int_inj.
  apply (f_equal (str_cut ":")) in H.
  rewrite !str_cut_app in H.
  - congruence.
  - eapply str_forall_lacks; [| apply str_of_int_chars]. reflexivity.
  - eapply str_forall_lacks; [| apply str_of_int_chars]. reflexivity.
Qed.

(** X2.  Headers computed at different clock readings differ, whatever
    the clients and the paths are: the reading stands in the header. *)
Theorem header_differs_with_time c1 c2 n1 n2 p1 p2 :
  n1 <> n2 -> _generate_hmac_header c1 n1 p1 <> _generate_hmac_header c2 n2 p2.
Proof. intros Hne H. apply Hne. eapply header_time_inj, H. Qed.

Lemma header_differs_with_time_witness :
  (_generate_hmac_header sample_client 1700000000000 "/variables"
   =? _generate_hmac_header sample_client 1700000000001 "/variables") = false.
Proof.
  apply String.eqb_neq.
  apply (header_differs_with_time sample_client sample_client
           1700000000000 1700000000001 "/variables" "/variables").
  discriminate.
Defined.

(** ** The requests *)

(** X3.  A client made without a base URL, or with an empty one, asks
    the default host; one made with a base URL asks that one.  The name
    of the variable enters the path as it is. *)
Theorem get_variable_default_base_url key secret env name w :
  requested_urls (events_of (get_variable (Envbee_init key secret None) env name) w)
  = ["https://api.envbee.dev/variables-values/" +++ name]
  /\ requested_urls
       (events_of (get_variable (Envbee_init key secret (Some "")) env name) w)
     = ["https://api.envbee.dev/variables-values/" +++ name]
  /\ (forall u, nonempty u = true ->
        requested_urls
          (events_of (get_variable (Envbee_init key secret (Some u)) env name) w)
        = [u +++ "/variables-values/" +++ name]).
Proof.
  assert (H : forall self, requested_urls (events_of (get_variable self env name) w)
                           = [base_url self +++ "/variables-values/" +++ name]).
  { intros self. rewrite get_variable_events.
    destruct (fetched_value (remote env)); reflexivity. }
  repeat split; try (rewrite H; reflexivity).
  intros u Hu. rewrite H. unfold Envbee_init. cbn [base_url]. rewrite Hu. reflexivity.
Qed.

(** X5.  [_send_request] passes on, unchanged, a transport failure that
    is not a timeout, raises the parser's error for a 200 response whose
    body is not JSON, sends exactly one request, with the signature and
    the API key as headers, and leaves the cache as it is. *)
Theorem send_request_passes_failures_on self env url hdr timeout w :
  (forall e, remote env = Failed e -> e <> Timeout ->
     fst (_send_request self env url hdr timeout w) = Raise (RequestsException e))
  /\ (forall resp, remote env = Responded resp -> status_code resp = 200%Z ->
        json resp = None ->
        fst (_send_request self env url hdr timeout w) = Raise JSONDecodeError)
  /\ cache (snd (_send_request self env url hdr timeout w)) = cache w
  /\ events_of (_send_request self env url hdr timeout) w
     = [HttpGet url [("Authorization", hdr); ("x-api-key", api_key self)] timeout].
Proof.
  split; [| split; [| split]].
  - intros e He Hne. rewrite send_request_run, He. destruct e; try reflexivity.
    contradiction Hne; reflexivity.
  - intros resp Hr Hs Hj. rewrite send_request_run, Hr, Hs, Hj. reflexivity.
  - rewrite send_request_run. reflexivity.
  - apply events_of_app. rewrite send_request_run. reflexivity.
Qed.

(** ** One variable *)

Lemma get_variable_fetched self env name w v :
  fetched_value (remote env) = Some v ->
  get_variable self env name w =
  (Ret v,
   mkWorld (match faults w with
            | true :: _ => cache w
            | _ => store_set (PStr name) v (cache w)
            end)
           (tl (faults w))
           (trace w ++ [variable_request self env name; CacheSet (PStr name) v])).
Proof.
  rewrite get_variable_run. unfold fetched_value.
  destruct (remote_body (remote env)) as [[] |]; try discriminate.
  intros [= <-]. reflexivity.
Qed.

Lemma get_variable_unfetched self env name w :
  fetched_value (remote env) = None ->
  get_variable self env name w =
  (Ret (cached_or_none (PStr name) w),
   mkWorld (cache w) (tl (faults w))
           (trace w ++ [variable_request self env name; CacheGet (PStr name)])).
Proof.
  rewrite get_variable_run. unfold fetched_value.
  destruct (remote_body (remote env)) as [[] |]; try discriminate; reflexivity.
Qed.

Lemma remote_failed_unfetched o : remote_failed o = true -> fetched_value o = None.
Proof. intros H. unfold fetched_value. rewrite (remote_failed_no_body _ H). reflexivity. Qed.

(** X6.  When the remote answers 200 with JSON that is not an object,
    [get_variable] falls back on the cache: it returns what the cache
    holds for the name ([None] if nothing, or if the cache cannot be
    read), writes nothing and leaves the cache as it is. *)
Theorem get_variable_body_not_object self env name w body :
  remote_body (remote env) = Some body ->
  (forall d, body <> PDict d) ->
  fst (get_variable self env name w) = Ret (cached_or_none (PStr name) w)
  /\ cache_writes (events_of (get_variable self env name) w) = []
  /\ cache (snd (get_variable self env name w)) = cache w.
Proof.
  intros Hb Hd.
  assert (Hf : fetched_value (remote env) = None).
  { unfold fetched_value. rewrite Hb. destruct body; try reflexivity.
    exfalso. eapply Hd. reflexivity. }
  rewrite get_variable_events, (get_variable_unfetched _ _ _ _ Hf), Hf.
  repeat split.
Qed.

Lemma get_variable_body_not_object_witness :
  fst (get_variable sample_client (mkEnv 0 (Responded json_list_response)) "DB_HOST"
         one_variable_world)
  = Ret (PStr "db.internal")
  /\ cache_writes
       (events_of (get_variable sample_client (mkEnv 0 (Responded json_list_response))
                     "DB_HOST") one_variable_world) = []
  /\ cache (snd (get_variable sample_client (mkEnv 0 (Responded json_list_response))
                   "DB_HOST" one_variable_world))
     = [(PStr "DB_HOST", PStr "db.internal")].
Proof.
  apply (get_variable_body_not_object sample_client
           (mkEnv 0 (Responded json_list_response)) "DB_HOST" one_variable_world
           (PList [PInt 1; PInt 2])).
  - reflexivity.
  - discriminate.
Defined.

(** X7.  Read-through: after a call that fetched [x] for a name, a call
    for the same name whose fetch fails returns [x] as the cache gives
    it back, provided the two cache accesses work: [x] itself, if it is
    neither a NaN nor a text long enough to be kept in a file. *)
Theorem get_variable_read_through self env1 env2 name w x :
  fetched_value (remote env1) = Some x ->
  fetched_value (remote env2) = None ->
  hd false (faults w) = false ->
  hd false (tl (faults w)) = false ->
  fst (get_variable self env2 name (snd (get_variable self env1 name w)))
  = Ret (value_read x)
  /\ (kept_as_written x = true ->
      fst (get_variable self env2 name (snd (get_variable self env1 name w)))
      = Ret x).
Proof.
  intros H1 H2 F1 F2.
  rewrite (get_variable_fetched _ _ _ _ _ H1). cbn [snd].
  rewrite (get_variable_unfetched _ _ _ _ H2). cbn [fst].
  unfold cached_or_none. cbn [faults cache].
  rewrite (no_fault _ _ _ F2), (no_fault _ _ _ F1).
  rewrite store_get_set by apply key_match_str_refl.
  split; [reflexivity |]. intros Hx. rewrite (value_read_kept x Hx). reflexivity.
Qed.

Lemma get_variable_read_through_witness :
  fst (get_variable sample_client (mkEnv 2 (Failed ConnectionError)) "DB_HOST"
         (snd (get_variable sample_client (mkEnv 1 (Responded value_x_response))
                 "DB_HOST" empty_world)))
  = Ret (value_read (PStr "x"))
  /\ (kept_as_written (PStr "x") = true ->
      fst (get_variable sample_client (mkEnv 2 (Failed ConnectionError)) "DB_HOST"
             (snd (get_variable sample_client (mkEnv 1 (Responded value_x_response))
                     "DB_HOST" empty_world)))
      = Ret (PStr "x")).
Proof.
  apply (get_variable_read_through sample_client
           (mkEnv 1 (Responded value_x_response)) (mkEnv 2 (Failed ConnectionError))
           "DB_HOST" empty_world (PStr "x")); reflexivity.
Defined.

(** X8.  The last value wins: after two calls for a name that fetched
    [x] and then [y], with working cache accesses, reading the name
    from the cache gives [y] as the cache gives it back; the cache has
    the same names as after the first call, and holds for every other
    name what it held at the start. *)
Theorem get_variable_last_value_wins self env1 env2 name w x y :
  fetched_value (remote env1) = Some x ->
  fetched_value (remote env2) = Some y ->
  hd false (faults w) = false ->
  hd false (tl (faults w)) = false ->
  let w1 := snd (get_variable self env1 name w) in
  let w2 := snd (get_variable self env2 name w1) in
  store_get (PStr name) (cache w2) = Some (value_read y)
  /\ map fst (cache w2) = map fst (cache w1)
  /\ (forall other, other <> name ->
        store_get (PStr other) (cache w2) = store_get (PStr other) (cache w)).
Proof.
  intros H1 H2 F1 F2 w1 w2. subst w2 w1.
  rewrite (get_variable_fetched _ _ _ _ _ H1). cbn [snd].
  rewrite (get_variable_fetched _ _ _ _ _ H2). cbn [snd cache faults].
  rewrite (no_fault _ _ _ F2), (no_fault _ _ _ F1).
  split; [apply store_get_set, key_match_str_refl |].
  split; [eapply store_set_keys_present, store_get_set, key_match_str_refl |].
  intros other Hk.
  rewrite !store_get_set_other by (apply key_match_str_other, Hk). reflexivity.
Qed.

Lemma get_variable_last_value_wins_witness :
  store_get (PStr "DB_HOST")
    (cache (snd (get_variable sample_client (mkEnv 2 (Responded value_x_response))
                   "DB_HOST"
                   (snd (get_variable sample_client
                           (mkEnv 1 (Responded no_value_response)) "DB_HOST"
                           empty_world)))))
  = Some (value_read (PStr "x"))
  /\ map fst
       (cache (snd (get_variable sample_client (mkEnv 2 (Responded value_x_response))
                      "DB_HOST"
                      (snd (get_variable sample_client
                              (mkEnv 1 (Responded no_value_response)) "DB_HOST"
                              empty_world)))))
     = map fst
         (cache (snd (get_variable sample_client
                        (mkEnv 1 (Responded no_value_response)) "DB_HOST"
                        empty_world)))
  /\ (forall other, other <> "DB_HOST" ->
        store_get (PStr other)
          (cache (snd (get_variable sample_client
                         (mkEnv 2 (Responded value_x_response)) "DB_HOST"
                         (snd (get_variable sample_client
                                 (mkEnv 1 (Responded no_value_response)) "DB_HOST"
                                 empty_world)))))
        = store_get (PStr other) (cache empty_world)).
Proof.
  apply (get_variable_last_value_wins sample_client
           (mkEnv 1 (Responded no_value_response))
           (mkEnv 2 (Responded value_x_response))
           "DB_HOST" empty_world PNone (PStr "x")); reflexivity.
Defined.

(** X9.  [_cache_variable] never raises.  When its cache access fails
    the cache is left as it was.  When it works, reading the name back
    gives the value as the cache gives it back (the value written, if
    it is neither a NaN nor a text long enough to be kept in a file),
    and reading any other name gives what the cache held for it
    before. *)
Theorem cache_variable_then_read self name v w :
  fst (_cache_variable self (PStr name) v w) = Ret tt
  /\ (hd false (faults w) = true ->
      cache (snd (_cache_variable self (PStr name) v w)) = cache w)
  /\ (hd false (faults w) = false -> hd false (tl (faults w)) = false ->
      fst (_get_variable_from_cache self (PStr name)
             (snd (_cache_variable self (PStr name) v w))) = Ret (value_read v)
      /\ (kept_as_written v = true ->
          fst (_get_variable_from_cache self (PStr name)
                 (snd (_cache_variable self (PStr name) v w))) = Ret v)
      /\ forall other, other <> name ->
           fst (_get_variable_from_cache self (PStr other)
                  (snd (_cache_variable self (PStr name) v w)))
           = Ret (match store_get (PStr other) (cache w) with
                  | Some x => x
                  | None => PNone
                  end)).
Proof.
  rewrite cache_variable_run. cbn [fst snd cache].
  split; [reflexivity |]. split.
  - destruct (faults w) as [| [] ?]; cbn; intros; try discriminate; reflexivity.
  - intros F1 F2. rewrite (no_fault _ _ _ F1).
    assert (Hv : fst (_get_variable_from_cache self (PStr name)
                        (mkWorld (store_set (PStr name) v (cache w)) (tl (faults w))
                           (trace w ++ [CacheSet (PStr name) v])))
                 = Ret (value_read v)).
    { rewrite get_variable_from_cache_run. unfold cached_or_none. cbn [fst faults cache].
      rewrite (no_fault _ _ _ F2), store_get_set by apply key_match_str_refl.
      reflexivity. }
    split; [exact Hv |]. split.
    + intros Hk. rewrite Hv, (value_read_kept v Hk). reflexivity.
    + intros other Hk. rewrite !get_variable_from_cache_run. unfold cached_or_none.
      cbn [fst faults cache].
      rewrite (no_fault _ _ _ F2), store_get_set_other
        by (apply key_match_str_other, Hk).
      reflexivity.
Qed.

(** ** Lists of variables *)

Lemma entry_fields_cache_entry kv : entry_fields (cache_entry kv) = Some kv.
Proof. destruct kv. reflexivity. Qed.

Lemma leading_entries_cache_entries pairs :
  leading_entries (map cache_entry pairs) = pairs
  /\ well_formed_entries (map cache_entry pairs) = true.
Proof.
  induction pairs as [| kv rest [IH1 IH2]]; [split; reflexivity |].
  cbn [map leading_entries well_formed_entries forallb].
  rewrite entry_fields_cache_entry. fold (well_formed_entries (map cache_entry rest)).
  rewrite IH1, IH2. split; reflexivity.
Qed.

Lemma fetched_items_data o d data items :
  remote_body o = Some (PDict d) ->
  dict_get "data" d = Some data ->
  py_iter data = Ret items ->
  fetched_items o = Some (data, items).
Proof.
  intros Hb Hd Hi. unfold fetched_items. rewrite Hb. cbn [py_get]. rewrite Hd, Hi.
  reflexivity.
Qed.

Lemma named_keys_NoDup (pairs : list (string * pyval)) :
  NoDup (map fst pairs) -> NoDup (map fst (map named pairs)).
Proof.
  induction pairs as [| [n v] rest IH]; cbn [map fst named]; intros H; [constructor |].
  inversion H as [| ? ? Hn Hr]; subst. constructor; [| apply IH, Hr].
  intros Hin. apply Hn. apply in_map_iff in Hin as ([k x] & E & Hin).
  apply in_map_iff in Hin as ([m y] & E' & Hin). cbn [named fst snd] in *.
  injection E' as <- <-. cbn [fst] in E. injection E as ->.
  change n with (fst (n, y)). apply in_map, Hin.
Qed.

Section ListFacts.
Variable netloc_ok : string -> bool.


(** X10.  When the remote delivers a list whose items all have a name
    and a value, [get_variables] returns the data as fetched, whether or
    not the cache writes work, writes the entries to the cache in order,
    one write each, and reads nothing from it.  If no cache access
    fails, reading a key then gives the value of the last entry whose
    name finds the row of that key, as the cache gives it back, and what
    it gave before for a key no entry finds. *)
Theorem get_variables_success self env offset limit w data items :
  fetched_items (remote env) = Some (data, items) ->
  well_formed_entries items = true ->
  let r := get_variables netloc_ok self env offset limit w in
  fst r = Ret data
  /\ events_of (get_variables netloc_ok self env offset limit) w
     = variables_request self env offset limit
       :: map write_event (leading_entries items)
  /\ (faults w = [] ->
      forall k, store_get k (cache (snd r)) =
                match last_value k (leading_entries items) with
                | Some v => Some (value_read v)
                | None => store_get k (cache w)
                end).
Proof.
  intros Hi Hw r. subst r.
  rewrite get_variables_events, get_variables_run, Hi. cbv zeta. rewrite Hw, app_nil_r.
  cbn [fst snd]. repeat split.
  intros Hf k.
  match goal with |- context [write_all self ?es ?w0] =>
    destruct (write_all_no_faults self es w0 Hf) as [-> _] end.
  cbn [cache]. apply store_get_store_all.
Qed.

(** X11.  When the remote answers 200 with a JSON object that has no
    [data] field, [get_variables] returns the empty list and neither
    reads nor writes the cache. *)
Theorem get_variables_without_data self env offset limit w d :
  remote_body (remote env) = Some (PDict d) ->
  dict_get "data" d = None ->
  get_variables netloc_ok self env offset limit w
  = (Ret (PList []),
     mkWorld (cache w) (faults w) (trace w ++ [variables_request self env offset limit])).
Proof.
  intros Hb Hd. rewrite get_variables_run.
  assert (Hi : fetched_items (remote env) = Some (PList [], [])).
  { unfold fetched_items. rewrite Hb. cbn [py_get]. rewrite Hd. reflexivity. }
  rewrite Hi. reflexivity.
Qed.

(** X12.  When the remote attempt yields nothing to loop over (it fails,
    the body is not a JSON object, or [data] is [null], a number or a
    boolean), [get_variables] returns the entries of the cache, or
    [None] if the cache cannot be read; it reads the cache once and
    writes nothing. *)
Theorem get_variables_unusable_body self env offset limit w :
  fetched_items (remote env) = None ->
  fst (get_variables netloc_ok self env offset limit w) = Ret (cached_entries w)
  /\ events_of (get_variables netloc_ok self env offset limit) w
     = [variables_request self env offset limit; CacheItems]
  /\ cache (snd (get_variables netloc_ok self env offset limit w)) = cache w.
Proof.
  intros Hi. rewrite get_variables_events, get_variables_run, Hi. cbv zeta.
  rewrite get_variables_from_cache_run. repeat split.
Qed.

(** X13.  After [get_variables] fetched a list of well-formed entries,
    with a working cache, [get_variable] for a listed name returns, when
    its own fetch fails, the value of the last entry with that name, as
    the cache gives it back. *)
Theorem get_variables_then_get_variable self env1 env2 offset limit w data items name v :
  faults w = [] ->
  fetched_items (remote env1) = Some (data, items) ->
  well_formed_entries items = true ->
  last_value (PStr name) (leading_entries items) = Some v ->
  remote_failed (remote env2) = true ->
  fst (get_variable self env2 name
         (snd (get_variables netloc_ok self env1 offset limit w)))
  = Ret (value_read v).
Proof.
  intros Hf Hi Hw Hl Hr.
  rewrite (get_variable_unfetched _ _ _ _ (remote_failed_unfetched _ Hr)). cbn [fst].
  rewrite get_variables_run, Hi. cbv zeta. rewrite Hw. cbn [snd].
  unfold cached_or_none.
  match goal with |- context [write_all self ?es ?w0] =>
    destruct (write_all_no_faults self es w0 Hf) as [-> ->] end.
  cbn [cache]. rewrite store_get_store_all, Hl. reflexivity.
Qed.

(** X14.  Round trip of a list: starting from an empty, working cache,
    when [get_variables] fetched a list of entries that hold just a name
    and a value, with distinct string names, a later call whose remote
    attempt fails returns the entries in the same order, each value as
    the cache gives it back: the same list, if no value is a NaN or a
    text long enough to be kept in a file. *)
Theorem get_variables_round_trip self env1 env2 offset limit offset' limit' w d pairs :
  cache w = [] ->
  faults w = [] ->
  remote_body (remote env1) = Some (PDict d) ->
  dict_get "data" d = Some (PList (map cache_entry (map named pairs))) ->
  NoDup (map fst pairs) ->
  remote_failed (remote env2) = true ->
  fst (get_variables netloc_ok self env1 offset limit w)
  = Ret (PList (map cache_entry (map named pairs)))
  /\ fst (get_variables netloc_ok self env2 offset' limit'
            (snd (get_variables netloc_ok self env1 offset limit w)))
     = Ret (PList (map read_back (map named pairs)))
  /\ (forallb (fun nv => kept_as_written (snd nv)) pairs = true ->
      fst (get_variables netloc_ok self env2 offset' limit'
             (snd (get_variables netloc_ok self env1 offset limit w)))
      = Ret (PList (map cache_entry (map named pairs)))).
Proof.
  intros Hc Hf Hb Hd Hn Hr.
  destruct w as [c f t]. cbn [cache faults] in Hc, Hf. subst c f.
  assert (Hi := fetched_items_data _ _ _ _ Hb Hd eq_refl).
  destruct (leading_entries_cache_entries (map named pairs)) as [Hl Hw].
  rewrite (get_variables_falls_back_to_cache netloc_ok _ _ _ _ _ Hr).
  rewrite get_variables_run, Hi. cbv zeta. rewrite Hw, Hl. cbn [fst snd cache faults trace].
  split; [reflexivity |].
  assert (Hs : cached_entries
                 (write_all self (map named pairs)
                    (mkWorld [] [] (t ++ [variables_request self env1 offset limit])))
               = PList (map read_back (map named pairs))).
  { match goal with |- context [write_all self ?es ?w0] =>
      destruct (write_all_no_faults self es w0 eq_refl) as [Hc' Hf'] end.
    cbn [cache] in Hc'.
    rewrite store_all_fresh in Hc' by (apply named_keys_NoDup, Hn).
    cbn [app] in Hc'. destruct (named_rows pairs Hn) as [Hr1 Hr2].
    rewrite cached_entries_rows; rewrite ?Hf', ?Hc'; auto. }
  rewrite Hs. split; [reflexivity |].
  intros Hk. do 2 f_equal. rewrite !map_map. apply map_ext_in.
  intros [n v] Hin. unfold read_back. cbn [named fst snd].
  rewrite forallb_forall in Hk. rewrite (value_read_kept v (Hk _ Hin)). reflexivity.
Qed.

(** X15.  When an item of the list is not an object with a name and a
    value, and no cache access fails, [get_variables] returns what
    reading the whole cache gives after the entries that precede that
    item were written to it.  For a cache whose rows can be read back
    and entries whose names are no NaN, that is the rows of the cache
    after those writes, the entries written among them. *)
Theorem get_variables_ragged_list self env offset limit w data items :
  faults w = [] ->
  fetched_items (remote env) = Some (data, items) ->
  well_formed_entries items = false ->
  fst (get_variables netloc_ok self env offset limit w)
  = Ret (cached_entries
           (mkWorld (store_all (leading_entries items) (cache w)) [] []))
  /\ (readable (cache w) = true -> distinct_rows (cache w) = true ->
      readable (leading_entries items) = true ->
      fst (get_variables netloc_ok self env offset limit w)
      = Ret (PList (map read_back (store_all (leading_entries items) (cache w))))).
Proof.
  intros Hf Hi Hw. rewrite get_variables_run, Hi. cbv zeta. rewrite Hw.
  rewrite get_variables_from_cache_run. cbn [fst]. unfold cached_entries.
  match goal with |- context [write_all self ?es ?w0] =>
    destruct (write_all_no_faults self es w0 Hf) as [-> ->] end.
  cbn [cache faults]. split; [reflexivity |].
  intros Hr Hd He.
  destruct (store_all_rows (leading_entries items) (cache w) He Hr Hd) as [H1 H2].
  pose proof (store_entries_rows _ [] H1 H2) as H. cbn [app] in H. rewrite H.
  reflexivity.
Qed.

(** X20.  A name that is a NaN spoils the reading of the whole cache:
    after [get_variables] fetched a list of well-formed entries one of
    which has such a name, with a working cache that holds no entry
    under the name [None], a call whose remote attempt fails returns
    [None] and no list.  The table holds the NaN as NULL, which is read
    back as [None], a key that finds no row. *)
Theorem get_variables_nan_name self env1 env2 offset limit offset' limit' w
    data items x v :
  faults w = [] ->
  fetched_items (remote env1) = Some (data, items) ->
  well_formed_entries items = true ->
  In (PFloat x, v) (leading_entries items) ->
  float_is_nan x = true ->
  store_get PNone (store_all (leading_entries items) (cache w)) = None ->
  remote_failed (remote env2) = true ->
  fst (get_variables netloc_ok self env2 offset' limit'
         (snd (get_variables netloc_ok self env1 offset limit w)))
  = Ret PNone.
Proof.
  intros Hf Hi Hw Hin Hx Hn Hr.
  rewrite (get_variables_falls_back_to_cache netloc_ok _ _ _ _ _ Hr).
  rewrite get_variables_run, Hi. cbv zeta. rewrite Hw. cbn [snd].
  unfold cached_entries.
  match goal with |- context [write_all self ?es ?w0] =>
    destruct (write_all_no_faults self es w0 Hf) as [-> ->] end.
  cbn [cache].
  destruct (store_entries_unread (store_all (leading_entries items) (cache w))
              (store_keys (store_all (leading_entries items) (cache w))))
    as [e ->]; [| exact Hn | reflexivity].
  apply (nan_key_read x); [exact Hx |].
  apply (store_all_keeps_nan _ _ x v Hx Hin).
Qed.

End ListFacts.

Lemma get_variables_success_witness :
  fst (get_variables (fun _ => true) sample_client (mkEnv 1 (Responded list_response))
         (Some 10%Z) (Some 5%Z) one_variable_world)
  = Ret (PList [cache_entry (PStr "A", PStr "1"); cache_entry (PStr "B", PStr "2")])
  /\ events_of (get_variables (fun _ => true) sample_client
                  (mkEnv 1 (Responded list_response)) (Some 10%Z) (Some 5%Z))
       one_variable_world
     = variables_request sample_client (mkEnv 1 (Responded list_response))
         (Some 10%Z) (Some 5%Z)
       :: map write_event
            (leading_entries
               [cache_entry (PStr "A", PStr "1"); cache_entry (PStr "B", PStr "2")])
  /\ (faults one_variable_world = [] ->
      forall k,
        store_get k
          (cache (snd (get_variables (fun _ => true) sample_client
                         (mkEnv 1 (Responded list_response)) (Some 10%Z) (Some 5%Z)
                         one_variable_world)))
        = match last_value k
                  (leading_entries
                     [cache_entry (PStr "A", PStr "1");
                      cache_entry (PStr "B", PStr "2")]) with
          | Some v => Some (value_read v)
          | None => store_get k (cache one_variable_world)
          end).
Proof.
  apply (get_variables_success (fun _ => true) sample_client
           (mkEnv 1 (Responded list_response)) (Some 10%Z) (Some 5%Z)
           one_variable_world
           (PList [cache_entry (PStr "A", PStr "1"); cache_entry (PStr "B", PStr "2")])
           [cache_entry (PStr "A", PStr "1"); cache_entry (PStr "B", PStr "2")]);
    reflexivity.
Defined.

Lemma get_variables_without_data_witness :
  get_variables (fun _ => true) sample_client (mkEnv 1 (Responded no_data_response))
    None None one_variable_world
  = (Ret (PList []),
     mkWorld (cache one_variable_world) (faults one_variable_world)
       (trace one_variable_world
        ++ [variables_request sample_client (mkEnv 1 (Responded no_data_response))
              None None])).
Proof.
  apply (get_variables_without_data (fun _ => true) sample_client
           (mkEnv 1 (Responded no_data_response)) None None one_variable_world []);
    reflexivity.
Defined.

Lemma get_variables_unusable_body_witness :
  fst (get_variables (fun _ => true) sample_client
         (mkEnv 1 (Responded null_data_response)) None None one_variable_world)
  = Ret (cached_entries one_variable_world)
  /\ events_of (get_variables (fun _ => true) sample_client
                  (mkEnv 1 (Responded null_data_response)) None None)
       one_variable_world
     = [variables_request sample_client (mkEnv 1 (Responded null_data_response))
          None None; CacheItems]
  /\ cache (snd (get_variables (fun _ => true) sample_client
                   (mkEnv 1 (Responded null_data_response)) None None
                   one_variable_world))
     = cache one_variable_world.
Proof.
  apply (get_variables_unusable_body (fun _ => true) sample_client
           (mkEnv 1 (Responded null_data_response)) None None one_variable_world).
  reflexivity.
Defined.

Lemma get_variables_then_get_variable_witness :
  fst (get_variable sample_client (mkEnv 2 (Failed Timeout)) "B"
         (snd (get_variables (fun _ => true) sample_client
                 (mkEnv 1 (Responded list_response)) None None empty_world)))
  = Ret (PStr "2").
Proof.
  apply (get_variables_then_get_variable (fun _ => true) sample_client
           (mkEnv 1 (Responded list_response)) (mkEnv 2 (Failed Timeout))
           None None empty_world
           (PList [cache_entry (PStr "A", PStr "1"); cache_entry (PStr "B", PStr "2")])
           [cache_entry (PStr "A", PStr "1"); cache_entry (PStr "B", PStr "2")]
           "B" (PStr "2")); reflexivity.
Defined.

Lemma get_variables_round_trip_witness :
  fst (get_variables (fun _ => true) sample_client (mkEnv 1 (Responded list_response))
         None None empty_world)
  = Ret (PList (map cache_entry (map named [("A", PStr "1"); ("B", PStr "2")])))
  /\ fst (get_variables (fun _ => true) sample_client (mkEnv 2 (Failed Timeout))
            None None
            (snd (get_variables (fun _ => true) sample_client
                    (mkEnv 1 (Responded list_response)) None None empty_world)))
     = Ret (PList (map read_back (map named [("A", PStr "1"); ("B", PStr "2")])))
  /\ (forallb (fun nv => kept_as_written (snd nv)) [("A", PStr "1"); ("B", PStr "2")]
      = true ->
      fst (get_variables (fun _ => true) sample_client (mkEnv 2 (Failed Timeout))
             None None
             (snd (get_variables (fun _ => true) sample_client
                     (mkEnv 1 (Responded list_response)) None None empty_world)))
      = Ret (PList (map cache_entry (map named [("A", PStr "1"); ("B", PStr "2")])))).
Proof.
  apply (get_variables_round_trip (fun _ => true) sample_client
           (mkEnv 1 (Responded list_response)) (mkEnv 2 (Failed Timeout))
           None None None None empty_world
           [("data", PList [cache_entry (PStr "A", PStr "1");
                            cache_entry (PStr "B", PStr "2")])]
           [("A", PStr "1"); ("B", PStr "2")]);
    try reflexivity.
  constructor; [intros [H | []]; discriminate H |].
  constructor; [intros [] | constructor].
Defined.

Lemma get_variables_ragged_list_witness :
  fst (get_variables (fun _ => true) sample_client
         (mkEnv 1 (Responded ragged_list_response)) None None one_variable_world)
  = Ret (cached_entries
           (mkWorld
              (store_all
                 (leading_entries
                    [PDict [("name", PStr "A"); ("value", PStr "1")];
                     PDict [("name", PStr "B")]])
                 (cache one_variable_world)) [] []))
  /\ (readable (cache one_variable_world) = true ->
      distinct_rows (cache one_variable_world) = true ->
      readable (leading_entries
                  [PDict [("name", PStr "A"); ("value", PStr "1")];
                   PDict [("name", PStr "B")]]) = true ->
      fst (get_variables (fun _ => true) sample_client
             (mkEnv 1 (Responded ragged_list_response)) None None one_variable_world)
      = Ret (PList (map read_back
                      (store_all
                         (leading_entries
                            [PDict [("name", PStr "A"); ("value", PStr "1")];
                             PDict [("name", PStr "B")]])
                         (cache one_variable_world))))).
Proof.
  apply (get_variables_ragged_list (fun _ => true) sample_client
           (mkEnv 1 (Responded ragged_list_response)) None None one_variable_world
           (PList [PDict [("name", PStr "A"); ("value", PStr "1")];
                   PDict [("name", PStr "B")]])
           [PDict [("name", PStr "A"); ("value", PStr "1")];
            PDict [("name", PStr "B")]]);
    reflexivity.
Defined.

Lemma get_variables_nan_name_witness :
  fst (get_variables (fun _ => true) sample_client (mkEnv 2 (Failed Timeout))
         None None
         (snd (get_variables (fun _ => true) sample_client
                 (mkEnv 1 (Responded nan_name_response)) None None
                 one_variable_world)))
  = Ret PNone.
Proof.
  apply (get_variables_nan_name (fun _ => true) sample_client
           (mkEnv 1 (Responded nan_name_response)) (mkEnv 2 (Failed Timeout))
           None None None None one_variable_world
           (PList [cache_entry (PFloat nan_bits, PStr "1")])
           [cache_entry (PFloat nan_bits, PStr "1")]
           nan_bits (PStr "1"));
    try reflexivity.
  left. reflexivity.
Defined.

Example ragged_list_result :
  fst (get_variables (fun _ => true) sample_client
         (mkEnv 1 (Responded ragged_list_response)) None None one_variable_world)
  = Ret (PList [cache_entry (PStr "DB_HOST", PStr "db.internal");
                cache_entry (PStr "A", PStr "1")]).
Proof. vm_compute. reflexivity. Qed.

(** ** Quoting, and reading a query string back *)

Lemma str_replace_append a b x y :
  str_replace a b (x +++ y) = str_replace a b x +++ str_replace a b y.
Proof.
  induction x as [| c x IH]; cbn [String.append str_replace]; [reflexivity |].
  rewrite IH. reflexivity.
Qed.

Lemma unquote_quoted_char c r :
  unquote_to_bytes (str_replace "+" " " (quote_plus_char c) +++ r)
  = byte_of_ascii c :: unquote_to_bytes r.
Proof. destruct c as [[] [] [] [] [] [] [] []]; reflexivity. Qed.

Lemma unquote_to_bytes_quote_plus s :
  unquote_to_bytes (str_replace "+" " " (quote_plus s)) = list_byte_of_string s.
Proof.
  induction s as [| c s IH]; [reflexivity |].
  cbn [quote_plus]. rewrite str_replace_append, unquote_quoted_char, IH. reflexivity.
Qed.

Lemma quoted_char_ascii c :
  str_forall is_ascii_char (str_replace "+" " " (quote_plus_char c)) = true.
Proof. destruct c as [[] [] [] [] [] [] [] []]; reflexivity. Qed.

Lemma quoted_ascii s :
  str_forall is_ascii_char (str_replace "+" " " (quote_plus s)) = true.
Proof.
  induction s as [| c s IH]; [reflexivity |].
  cbn [quote_plus]. rewrite str_replace_append, str_forall_app, quoted_char_ascii, IH.
  reflexivity.
Qed.

Lemma quoted_char_plain c :
  str_contains "%" (str_replace "+" " " (quote_plus_char c)) = false ->
  str_replace "+" " " (quote_plus_char c) = String c EmptyString.
Proof.
  destruct c as [[] [] [] [] [] [] [] []]; intros H;
    first [reflexivity | vm_compute in H; discriminate H].
Qed.

Lemma quoted_plain s :
  str_contains "%" (str_replace "+" " " (quote_plus s)) = false ->
  str_replace "+" " " (quote_plus s) = s.
Proof.
  induction s as [| c s IH]; [reflexivity |].
  cbn [quote_plus]. rewrite str_replace_append, str_contains_app.
  intros H. apply orb_false_iff in H as [H1 H2].
  rewrite (quoted_char_plain _ H1), (IH H2). reflexivity.
Qed.

Lemma unquote_scan_ascii t : forall acc,
  str_forall is_ascii_char t = true ->
  unquote_scan acc t = unquote_run (rev (list_ascii_of_string t) ++ acc).
Proof.
  induction t as [| c t IH]; intros acc H; cbn [unquote_scan list_ascii_of_string rev app].
  - reflexivity.
  - cbn [str_forall] in H. apply andb_true_iff in H as [Hc Ht].
    rewrite Hc, (IH _ Ht), <- app_assoc. reflexivity.
Qed.

Lemma byte_of_Z_val b : byte_of_Z (byte_val b) = b.
Proof. destruct b; reflexivity. Qed.

Lemma unquote_all_ascii t :
  str_forall is_ascii_char t = true ->
  unquote_scan [] t = decode_utf8_replace (unquote_to_bytes t).
Proof.
  intros H. rewrite (unquote_scan_ascii _ _ H), app_nil_r. unfold unquote_run.
  rewrite rev_involutive, string_of_list_ascii_of_string. reflexivity.
Qed.

Lemma unquote_plus_quote_plus_id s :
  well_formed_utf8 s -> unquote_plus (quote_plus s) = s.
Proof.
  intros Hw. unfold unquote_plus, unquote.
  destruct (str_contains "%" (str_replace "+" " " (quote_plus s))) eqn:E.
  - rewrite (unquote_all_ascii _ (quoted_ascii s)), unquote_to_bytes_quote_plus.
    unfold decode_utf8_replace. rewrite Hw, map_map.
    rewrite (map_ext _ (fun b => b) byte_of_Z_val), map_id.
    apply string_of_list_byte_of_string.
  - apply quoted_plain, E.
Qed.

Lemma ascii_well_formed s : str_forall is_ascii_char s = true -> well_formed_utf8 s.
Proof.
  unfold well_formed_utf8, list_byte_of_string.
  induction s as [| c s IH]; [reflexivity |].
  cbn [str_forall list_ascii_of_string map]. intros H.
  apply andb_true_iff in H as [Hc Hs].
  assert (Hb : (byte_val (byte_of_ascii c) <? 128)%Z = true).
  { revert Hc. destruct c as [[] [] [] [] [] [] [] []]; intros Hc;
      first [reflexivity | discriminate Hc]. }
  cbn [UTF8.scrub]. rewrite Hb, (IH Hs). reflexivity.
Qed.

(** X16.  Quoting then unquoting gives the text back: for well-formed
    text [s], [unquote_plus(quote_plus(s))] is [s], and [quote_plus(s)]
    holds only letters, digits, and the characters [_ . - ~ + %]. *)
Theorem quote_plus_round_trip s :
  well_formed_utf8 s ->
  unquote_plus (quote_plus s) = s
  /\ str_forall query_safe (quote_plus s) = true.
Proof.
  intros Hw. split; [apply unquote_plus_quote_plus_id, Hw | apply quote_plus_safe].
Qed.

Lemma quote_plus_round_trip_witness :
  unquote_plus (quote_plus ("a b&c=" +++ String "195" (String "169" EmptyString)))
  = "a b&c=" +++ String "195" (String "169" EmptyString)
  /\ str_forall query_safe
       (quote_plus ("a b&c=" +++ String "195" (String "169" EmptyString))) = true.
Proof.
  apply (quote_plus_round_trip ("a b&c=" +++ String "195" (String "169" EmptyString))).
  reflexivity.
Defined.

Example quote_plus_sample :
  quote_plus ("a b&c=" +++ String "195" (String "169" EmptyString)) = "a+b%26c%3D%C3%A9".
Proof. reflexivity. Qed.

(** text that is not well-formed does not come back: a lone byte 255 is
    read as U+FFFD *)
Example unquote_plus_ill_formed :
  unquote_plus (quote_plus (String "255" EmptyString))
  = String "239" (String "191" (String "189" EmptyString)).
Proof. reflexivity. Qed.

Lemma nonempty_quote_plus v : nonempty v = true -> nonempty (quote_plus v) = true.
Proof.
  destruct v as [| c v]; [discriminate |]. intros _. cbn [quote_plus].
  destruct c as [[] [] [] [] [] [] [] []]; reflexivity.
Qed.

Lemma parse_field_field_of kv :
  readable_pair kv -> parse_field (field_of (fst kv) (snd kv)) = [kv].
Proof.
  destruct kv as [k v]. intros (Hk & Hv & Hn). cbn [fst snd] in *.
  unfold parse_field. rewrite nonempty_field_of.
  unfold field_of. change ("=" +++ quote_plus v) with (String "=" (quote_plus v)).
  rewrite str_cut_app by (apply quote_plus_lacks; reflexivity).
  rewrite (nonempty_quote_plus _ Hn).
  fold (unquote_plus (quote_plus k)). fold (unquote_plus (quote_plus v)).
  rewrite !unquote_plus_quote_plus_id by assumption. reflexivity.
Qed.

Lemma urlencode_str_items pairs :
  flat_map urlencode_item (str_items pairs)
  = map (fun kv => field_of (fst kv) (snd kv)) pairs.
Proof.
  induction pairs as [| [k v] rest IH]; [reflexivity |].
  cbn [str_items map flat_map urlencode_item fst snd app]. f_equal. exact IH.
Qed.

Lemma parse_qsl_urlencode pairs :
  Forall readable_pair pairs -> parse_qsl (urlencode (str_items pairs)) = pairs.
Proof.
  intros H. unfold parse_qsl. rewrite nonempty_urlencode. unfold urlencode.
  destruct (flat_map urlencode_item (str_items pairs)) as [| f fs] eqn:E.
  - rewrite urlencode_str_items in E. destruct pairs; [reflexivity | discriminate E].
  - rewrite <- E. rewrite (str_split_join "&").
    + rewrite urlencode_str_items. clear E.
      induction H as [| kv rest Hkv Hrest IH]; [reflexivity |].
      cbn [map flat_map]. rewrite (parse_field_field_of _ Hkv), IH. reflexivity.
    + rewrite E. discriminate.
    + apply urlencode_fields_lack; [reflexivity | discriminate].
Qed.

Lemma dict_set_fresh {V} k (v : V) d :
  dict_get k d = None -> dict_set k v d = d ++ [(k, v)].
Proof.
  induction d as [| [k1 v1] rest IH]; cbn [dict_set dict_get app]; [reflexivity |].
  destruct (String.eqb k k1); [discriminate |]. intros H. f_equal. auto.
Qed.

Lemma dict_update_fresh {V} (o : list (string * V)) : forall d,
  NoDup (map fst d ++ map fst o) -> dict_update d o = d ++ o.
Proof.
  unfold dict_update.
  induction o as [| [k v] rest IH]; intros d H; cbn [fold_left fst snd].
  - rewrite app_nil_r. reflexivity.
  - cbn [map fst] in H.
    assert (Hk : dict_get k d = None).
    { apply dict_get_None. intros Hin. apply NoDup_remove_2 in H. apply H.
      apply in_or_app. left. exact Hin. }
    rewrite (dict_set_fresh _ _ _ Hk), IH.
    + rewrite <- app_assoc. reflexivity.
    + rewrite map_app. cbn [map fst]. rewrite <- app_assoc. exact H.
Qed.







Section MoreUrlFacts.
Variable netloc_ok : string -> bool.

Lemma raw_query_urlunparse url u q :
  urlparse netloc_ok url = Ret u -> lacks "#" q ->
  raw_query (urlunparse (set_query q u)) = q.
Proof.
  intros Hu Hq. apply urlparse_unmarked in Hu as (Hs & Hn & Hp & Hps).
  destruct (urlunparse_unmarked_base u Hs Hn Hp Hps) as (base & Hb & ->).
  apply raw_query_marks; assumption.
Qed.





(** X18.  What is appended can be read back: for a URL that [urlparse]
    accepts and that has no query string, and a dictionary of distinct
    names with non-empty string values, all well-formed text,
    [parse_qsl] reads from the query string of the URL [add_querystring]
    returns exactly the items of the dictionary, in order. *)
Theorem add_querystring_read_back url u pairs :
  urlparse netloc_ok url = Ret u ->
  query u = "" ->
  NoDup (map fst pairs) ->
  Forall readable_pair pairs ->
  exists r,
    add_querystring netloc_ok url (str_items pairs) = Ret r
    /\ parse_qsl (raw_query r) = pairs.
Proof.
  intros Hu Hq Hn Hr. unfold add_querystring. rewrite Hu, Hq.
  cbn [parse_qs parse_qsl nonempty flat_map fold_left map].
  rewrite dict_update_fresh by (cbn [map app]; unfold str_items; rewrite map_fst_map; exact Hn).
  cbn [app]. eexists. split; [reflexivity |].
  rewrite (raw_query_urlunparse url u _ Hu).
  - apply parse_qsl_urlencode, Hr.
  - apply urlencode_lacks; [reflexivity | discriminate | discriminate].
Qed.

End MoreUrlFacts.

Lemma add_querystring_read_back_witness :
  exists r,
    add_querystring (fun _ => true) "https://api.envbee.dev/variables#top"
      (str_items [("tag", "a b"); ("q", "x&y=z")]) = Ret r
    /\ parse_qsl (raw_query r) = [("tag", "a b"); ("q", "x&y=z")].
Proof.
  apply (add_querystring_read_back (fun _ => true)
           "https://api.envbee.dev/variables#top"
           (mkParseResult "https" "api.envbee.dev" "/variables" "" "" "top")
           [("tag", "a b"); ("q", "x&y=z")]).
  - reflexivity.
  - reflexivity.
  - constructor; [intros [H | []]; discriminate H |].
    constructor; [intros [] | constructor].
  - repeat constructor.
Defined.

Example add_querystring_read_back_sample :
  add_querystring (fun _ => true) "https://api.envbee.dev/variables#top"
    (str_items [("tag", "a b"); ("q", "x&y=z")])
  = Ret "https://api.envbee.dev/variables?tag=a+b&q=x%26y%3Dz#top".
Proof. vm_compute. reflexivity. Qed.
